(** * JEE Flash Cards: the mixed Markdown + math renderer and the data service

    A shallow embedding of [LatexRenderer] (the [htmlContent] computation:
    extraction of math spans behind placeholder tokens, Markdown parsing,
    restoration through KaTeX) and of [dataService] ([mapSubject],
    [normalizeData], [fetchQuestions]).

    JavaScript strings are modelled as lists of characters; the regular
    expressions of the renderer only distinguish the delimiter characters, so
    the width of a character plays no role. *)

From Stdlib Require Import List Ascii String Arith Lia Bool FinFun.
From Stdlib Require Import Decimal DecimalString DecimalNat.
From Stdlib Require Import ZArith Floats Uint63.
From Stdlib Require Import Sorted Permutation.
Import ListNotations.

Set Warnings "-register-all".

(** ** Strings *)

Definition str := list ascii.

(** A string literal of the source. *)
Definition lit (s : string) : str := list_ascii_of_string s.

Definition ascii_eqb (a b : ascii) : bool := Ascii.eqb a b.

Fixpoint str_eqb (a b : str) : bool :=
  match a, b with
  | [], [] => true
  | x :: a', y :: b' => ascii_eqb x y && str_eqb a' b'
  | _, _ => false
  end.

(** [strip_prefix p s] is [Some r] exactly when [s = p ++ r]. *)
Fixpoint strip_prefix (p s : str) : option str :=
  match p with
  | [] => Some s
  | x :: p' =>
      match s with
      | [] => None
      | y :: s' => if ascii_eqb x y then strip_prefix p' s' else None
      end
  end.

(** [occurs p s]: the string [p] is a substring of [s]. *)
Definition occurs (p s : str) : Prop := exists a b, s = a ++ p ++ b.

(** The executable counterpart of [occurs] (String.prototype.includes). *)
Fixpoint includes (p s : str) : bool :=
  match strip_prefix p s with
  | Some _ => true
  | None => match s with
            | [] => false
            | _ :: s' => includes p s'
            end
  end.

(** ** The per-call state of a render: the counter and the Token Table *)

Inductive MathType := block | inline.

Record MathSpan := { type : MathType; math : str }.

(** A JavaScript [Map] keeps its entries in insertion order; [forEach] visits
    them in that order, and [set] on a key already present changes the value
    where it stands. *)
Definition LatexMap := list (str * MathSpan).

Fixpoint map_set (k : str) (v : MathSpan) (m : LatexMap) : LatexMap :=
  match m with
  | [] => [(k, v)]
  | (k', v') :: m' =>
      if str_eqb k' k then (k', v) :: m' else (k', v') :: map_set k v m'
  end.

Definition keys (m : LatexMap) : list str := map fst m.

Record RenderState := { counter : nat; latexMap : LatexMap }.

(** The decimal digits of the counter, as a template literal prints them. *)
Definition decimal (n : nat) : str :=
  list_ascii_of_string (NilEmpty.string_of_uint (Nat.to_uint n)).

(** [`MATHITEM${counter}END`] *)
Definition token (n : nat) : str := lit "MATHITEM" ++ decimal n ++ lit "END".

(** The characters of a token. *)
Definition is_digit (c : ascii) : bool :=
  let n := nat_of_ascii c in (48 <=? n) && (n <=? 57).

Definition is_alnum (c : ascii) : bool :=
  let n := nat_of_ascii c in
  ((48 <=? n) && (n <=? 57)) || ((65 <=? n) && (n <=? 90)) || ((97 <=? n) && (n <=? 122)).

Definition alphanumeric (s : str) : Prop := Forall (fun c => is_alnum c = true) s.

(** A string of the placeholder pattern [MATHITEM<digits>END]. *)
Definition placeholder (p : str) : Prop :=
  exists ds, ds <> [] /\ Forall (fun c => is_digit c = true) ds /\
             p = lit "MATHITEM" ++ ds ++ lit "END".

(** The string shows a placeholder. *)
Definition leaks (html : str) : Prop := exists p, placeholder p /\ occurs p html.

(** The body of the callback given to [String.prototype.replace]:
    [const id = `MATHITEM${counter++}END`; latexMap.set(id, {type, math});
    return id]. *)
Definition replaceCallback (ty : MathType) (captured : str) (st : RenderState)
  : str * RenderState :=
  let id := token (counter st) in
  (id, {| counter := S (counter st);
          latexMap := map_set id {| type := ty; math := captured |} (latexMap st) |}).

(** The invariant of a render: the keys of the table are the tokens of the
    numbers below the counter, in the order of their creation. *)
Definition state_ok (st : RenderState) : Prop :=
  keys (latexMap st) = map token (seq 0 (counter st)).

(** ** The regular expressions

    Each of the four expressions has the shape [OPEN([\s\S]*?)CLOSE] with the
    global flag. [[\s\S]] matches every character and the star is lazy, so a
    match that starts at some position captures the text up to the first
    [CLOSE] found after [OPEN]; when there is none, the expression does not
    match at that position and the search moves one character on. *)

Record Regex := { re_open : str; re_close : str }.

(** The expressions of the renderer never match the empty string. *)
Definition proper (re : Regex) : Prop := re_open re <> [].

(** The text before the first occurrence of [close], and the text after it. *)
Fixpoint find_close (close s : str) : option (str * str) :=
  match strip_prefix close s with
  | Some rest => Some ([], rest)
  | None =>
      match s with
      | [] => None
      | c :: s' =>
          match find_close close s' with
          | Some (captured, rest) => Some (c :: captured, rest)
          | None => None
          end
      end
  end.

(** One attempt of the expression at the start of [s]. *)
Definition match_here (re : Regex) (s : str) : option (str * str) :=
  match strip_prefix (re_open re) s with
  | Some body => find_close (re_close re) body
  | None => None
  end.

(** [str.replace(regex, callback)]: the matches are found from left to right,
    the callback runs once per match, in that order, and the search resumes
    after the end of a match. The first argument bounds the number of steps;
    [replaceMath] gives it the length of the string, which is always enough
    (see [replace_loop_fuel]). *)
Fixpoint replace_loop (fuel : nat) (re : Regex) (ty : MathType) (s : str)
  (st : RenderState) : str * RenderState :=
  match fuel with
  | O => (s, st)
  | S fuel' =>
      match s with
      | [] => ([], st)
      | c :: s' =>
          match match_here re s with
          | Some (captured, rest) =>
              let '(id, st1) := replaceCallback ty captured st in
              let '(out, st2) := replace_loop fuel' re ty rest st1 in
              (id ++ out, st2)
          | None =>
              let '(out, st2) := replace_loop fuel' re ty s' st in
              (c :: out, st2)
          end
      end
  end.

Definition replaceMath (s : str) (re : Regex) (ty : MathType) (st : RenderState)
  : str * RenderState :=
  replace_loop (List.length s) re ty s st.

(** The reading of a text by one rule: a character that the rule leaves as
    it is, or a match with the text it captured. *)
Inductive Piece :=
| Plain (c : ascii)
| Matched (captured : str).

(** The text that a reading stands for. *)
Fixpoint pieces_source (re : Regex) (ps : list Piece) : str :=
  match ps with
  | [] => []
  | Plain c :: rest => c :: pieces_source re rest
  | Matched captured :: rest =>
      re_open re ++ captured ++ re_close re ++ pieces_source re rest
  end.

(** The same text with each match replaced by the token of the next number. *)
Fixpoint pieces_output (n : nat) (ps : list Piece) : str :=
  match ps with
  | [] => []
  | Plain c :: rest => c :: pieces_output n rest
  | Matched _ :: rest => token n ++ pieces_output (S n) rest
  end.

(** The table entries of the matches, numbered from [n]. *)
Fixpoint pieces_entries (ty : MathType) (n : nat) (ps : list Piece) : LatexMap :=
  match ps with
  | [] => []
  | Plain _ :: rest => pieces_entries ty n rest
  | Matched captured :: rest =>
      (token n, {| type := ty; math := captured |}) :: pieces_entries ty (S n) rest
  end.

Fixpoint count_matched (ps : list Piece) : nat :=
  match ps with
  | [] => 0
  | Plain _ :: rest => count_matched rest
  | Matched _ :: rest => S (count_matched rest)
  end.

(** The text starts with a delimited span of the rule. *)
Definition matches_at (re : Regex) (s : str) : Prop :=
  exists captured rest, s = re_open re ++ captured ++ re_close re ++ rest.

(** [/\$\$([\s\S]*?)\$\$/g] *)
Definition re_double_dollar : Regex :=
  {| re_open := lit "$$"; re_close := lit "$$" |}.
(** [/\\\[([\s\S]*?)\\\]/g] *)
Definition re_bracket : Regex :=
  {| re_open := lit "\["; re_close := lit "\]" |}.
(** [/\\\(([\s\S]*?)\\\)/g] *)
Definition re_paren : Regex :=
  {| re_open := lit "\("; re_close := lit "\)" |}.
(** [/\$([\s\S]*?)\$/g] *)
Definition re_dollar : Regex :=
  {| re_open := lit "$"; re_close := lit "$" |}.

(** A fresh render: [new Map()] and [let counter = 0]. *)
Definition initial_state : RenderState := {| counter := 0; latexMap := [] |}.

(** The four protection passes, in the order of the source. *)
Definition protect (text : str) : str * RenderState :=
  let protectedText := text in
  let '(protectedText, st) := replaceMath protectedText re_double_dollar block initial_state in
  let '(protectedText, st) := replaceMath protectedText re_bracket block st in
  let '(protectedText, st) := replaceMath protectedText re_paren inline st in
  let '(protectedText, st) := replaceMath protectedText re_dollar inline st in
  (protectedText, st).

(** ** Restoration: [rawHtml.split(id).join(rendered)] *)

(** [s.split(sep)] for a separator that is not empty (a token never is): the
    occurrences of [sep] are found from left to right without overlap. The
    first argument bounds the number of steps; [split] gives it the length of
    the string (see [split_loop_fuel]). *)
Fixpoint split_loop (fuel : nat) (sep s : str) : list str :=
  match fuel with
  | O => [s]
  | S fuel' =>
      match s with
      | [] => [[]]
      | c :: s' =>
          match strip_prefix sep s with
          | Some rest => [] :: split_loop fuel' sep rest
          | None =>
              match split_loop fuel' sep s' with
              | seg :: segs => (c :: seg) :: segs
              | [] => [[c]]
              end
          end
      end
  end.

Definition split (sep s : str) : list str := split_loop (List.length s) sep s.

(** [parts.join(glue)] *)
Fixpoint join (glue : str) (parts : list str) : str :=
  match parts with
  | [] => []
  | [p] => p
  | p :: rest => p ++ glue ++ join glue rest
  end.

(** [s.split(sep).join(r)]: every occurrence of [sep] replaced by [r]. *)
Definition replace_all (sep r s : str) : str := join r (split sep s).

(** An HTML element, as far as the renderer can tell: it opens with [<] and
    closes with [>]. *)
Definition markup (r : str) : Prop := exists body, r = lit "<" ++ body ++ lit ">".

(** [Replaced id frag s out]: [out] is [s] with the occurrences of [id], taken
    from left to right without overlap, replaced by [frag], and every other
    character kept. *)
Inductive Replaced (id frag : str) : str -> str -> Prop :=
| Replaced_end : Replaced id frag [] []
| Replaced_hit (rest out : str) :
    Replaced id frag rest out -> Replaced id frag (id ++ rest) (frag ++ out)
| Replaced_keep (c : ascii) (s out : str) :
    (forall r, c :: s <> id ++ r) ->
    Replaced id frag s out -> Replaced id frag (c :: s) (c :: out).

(** [Restored fragment_of m s out]: [out] comes from [s] by taking the entries
    of the table in order and replacing, for each, the occurrences of its
    token by the fragment of its span. *)
Inductive Restored (fragment_of : MathSpan -> str) : LatexMap -> str -> str -> Prop :=
| Restored_done (s : str) : Restored fragment_of [] s s
| Restored_entry (id : str) (data : MathSpan) (m : LatexMap) (s s' out : str) :
    Replaced id (fragment_of data) s s' ->
    Restored fragment_of m s' out ->
    Restored fragment_of ((id, data) :: m) s out.

(** [Substituted fragment_of m s out]: [out] is [s] read from left to right
    with every occurrence of a token of the table replaced by the fragment of
    the span of that token, and every other character kept. *)
Inductive Substituted (fragment_of : MathSpan -> str) (m : LatexMap)
  : str -> str -> Prop :=
| Substituted_end : Substituted fragment_of m [] []
| Substituted_hit (id : str) (data : MathSpan) (rest out : str) :
    In (id, data) m ->
    Substituted fragment_of m rest out ->
    Substituted fragment_of m (id ++ rest) (fragment_of data ++ out)
| Substituted_keep (c : ascii) (s out : str) :
    (forall k, In k (keys m) -> forall r, c :: s <> k ++ r) ->
    Substituted fragment_of m s out ->
    Substituted fragment_of m (c :: s) (c :: out).

(** ** The external transforms *)

(** What a call that may throw gives back. *)
Inductive Result (E A : Type) : Type :=
| Ok (a : A)
| Throw (e : E).
Arguments Ok {E A} a.
Arguments Throw {E A} e.

(** The options object given to [katex.renderToString]. *)
Record KatexOptions := {
  displayMode : bool;
  throwOnError : bool;
  output : str;
  trust : bool
}.

(** The options of [marked] that the program sets. [marked.setOptions] writes
    them into the defaults of the library, which outlive the call. *)
Record MarkedOptions := { gfm : bool; breaks : bool }.

(** [marked.setOptions({gfm, breaks})]: both fields are overwritten. *)
Definition setOptions (new current : MarkedOptions) : MarkedOptions :=
  {| gfm := gfm new; breaks := breaks new |}.

Definition is_block (ty : MathType) : bool :=
  match ty with block => true | inline => false end.

(** The options that the renderer gives to KaTeX for a span. *)
Definition katex_options (data : MathSpan) : KatexOptions :=
  {| displayMode := is_block (type data);
     throwOnError := false;
     output := lit "html";
     trust := true |}.

(** The double quote character. *)
Definition dquote : str := ["034"%char].

(** The properties of the component, and the element it returns. *)
Record LatexRendererProps := {
  text : str;
  className : option str;
  block_prop : option bool
}.

Record Element := { el_className : str; dangerouslySetInnerHTML : str }.

Section Renderer.

(** The values that can be thrown, and their conversion to a string by a
    template literal. *)
Variable Exn : Type.
Variable exn_to_string : Exn -> str.

(** [marked.parse], read under the current options of the library. *)
Variable marked_parse : MarkedOptions -> str -> Result Exn str.

(** [katex.renderToString]. *)
Variable katex_renderToString : str -> KatexOptions -> Result Exn str.

(** [`<span class="text-red-400 error" title="${e}">$${data.math}$</span>`]:
    in the template literal the first [$] after the opening tag is a plain
    character, [${data.math}] is the interpolation and the [$] after it is
    a plain character again. *)
Definition span_open (e : Exn) : str :=
  lit "<span class=" ++ dquote ++ lit "text-red-400 error" ++ dquote
    ++ lit " title=" ++ dquote ++ exn_to_string e ++ dquote ++ lit ">".

Definition error_fragment (e : Exn) (data : MathSpan) : str :=
  span_open e ++ lit "$" ++ math data ++ lit "$" ++ lit "</span>".

(** What takes the place of the token of a span: the rendered math, or the
    error fragment when KaTeX threw. *)
Definition fragment (data : MathSpan) : str :=
  match katex_renderToString (math data) (katex_options data) with
  | Ok rendered => rendered
  | Throw e => error_fragment e data
  end.

(** A table whose restoration does not depend on the order of its entries:
    its keys are tokens, each one once, and the fragment of every span is an
    element that holds none of the keys. *)
Definition restorable (m : LatexMap) : Prop :=
  NoDup (keys m)
  /\ (forall k, In k (keys m) -> exists n, k = token n)
  /\ (forall entry, In entry m ->
        markup (fragment (snd entry))
        /\ forall k, In k (keys m) -> ~ occurs k (fragment (snd entry))).

(** The body of [latexMap.forEach((data, id) => { try ... catch ... })]:
    the new value of [rawHtml]. The [console.error] of the catch branch
    writes to the console only. *)
Definition restore_entry (rawHtml : str) (entry : str * MathSpan) : str :=
  let '(id, data) := entry in
  match katex_renderToString (math data) (katex_options data) with
  | Ok rendered => join rendered (split id rawHtml)
  | Throw e => join (error_fragment e data) (split id rawHtml)
  end.

Definition restore (m : LatexMap) (rawHtml : str) : str :=
  fold_left restore_entry m rawHtml.

(** The function given to [useMemo]: the HTML of [text], or the exception
    that [marked.parse] threw, together with the options of [marked] as the
    call leaves them. [useMemo] only avoids calling it again for the same
    [text]. *)
Definition htmlContent (g : MarkedOptions) (text : str)
  : Result Exn str * MarkedOptions :=
  match text with
  | [] => (Ok [], g)
  | _ :: _ =>
      let '(protectedText, st) := protect text in
      let g' := setOptions {| gfm := true; breaks := true |} g in
      match marked_parse g' protectedText with
      | Throw e => (Throw e, g')
      | Ok rawHtml => (Ok (restore (latexMap st) rawHtml), g')
      end
  end.

(** The component: [className] defaults to the empty string and [block] to
    [false]. *)
Definition LatexRenderer (g : MarkedOptions) (props : LatexRendererProps)
  : Result Exn Element * MarkedOptions :=
  let className := match className props with Some c => c | None => [] end in
  let block := match block_prop props with Some b => b | None => false end in
  match htmlContent g (text props) with
  | (Ok html, g') =>
      (Ok {| el_className := lit "markdown-content " ++ className;
             dangerouslySetInnerHTML := html |}, g')
  | (Throw e, g') => (Throw e, g')
  end.

(** A session: the component rendered for one text after another, the
    options of [marked] passing from each call to the next. *)
Fixpoint render_all (g : MarkedOptions) (texts : list str)
  : list (Result Exn str) * MarkedOptions :=
  match texts with
  | [] => ([], g)
  | t :: rest =>
      let '(r, g1) := htmlContent g t in
      let '(rs, g2) := render_all g1 rest in
      (r :: rs, g2)
  end.

End Renderer.

Arguments span_open {Exn} exn_to_string e.
Arguments error_fragment {Exn} exn_to_string e data.
Arguments fragment {Exn} exn_to_string katex_renderToString data.
Arguments restorable {Exn} exn_to_string katex_renderToString m.
Arguments restore_entry {Exn} exn_to_string katex_renderToString rawHtml entry.
Arguments restore {Exn} exn_to_string katex_renderToString m rawHtml.
Arguments htmlContent {Exn} exn_to_string marked_parse katex_renderToString g text.
Arguments LatexRenderer {Exn} exn_to_string marked_parse katex_renderToString g props.
Arguments render_all {Exn} exn_to_string marked_parse katex_renderToString g texts.

(** Stand-ins for the external transforms on simple inputs: [marked] wraps a
    line of plain text in a paragraph, and a KaTeX that wraps its source in a
    span, or always throws. *)
Definition newline : str := ["010"%char].

Definition paragraph (_ : MarkedOptions) (s : str) : Result str str :=
  Ok (lit "<p>" ++ s ++ lit "</p>" ++ newline).

Definition katex_span (src : str) (o : KatexOptions) : Result str str :=
  Ok (lit (if displayMode o then "<span class=katex-display>" else "<span class=katex>")
        ++ src ++ lit "</span>").

Definition katex_throws (src : str) (_ : KatexOptions) : Result str str :=
  Throw (lit "ParseError").

(** The options of [marked] before any call of the renderer. *)
Definition default_options : MarkedOptions := {| gfm := true; breaks := false |}.

(** ** The data service *)

Module DataService.

(** JavaScript values, as [JSON.parse] and the property lookups of the
    service produce them. Numbers are IEEE 754 doubles. A function value only
    arises from a lookup that reaches [Object.prototype]. *)
Inductive Value :=
| VUndefined
| VNull
| VBool (b : bool)
| VNumber (n : float)
| VString (s : str)
| VArray (items : list Value)
| VObject (props : list (str * Value))
| VFunction (source : str).

(** What can be thrown or be the reason of a rejected promise. *)
Inductive Exn :=
| TypeError (message : str)
| Error (message : str)
| Rejection (reason : Value).

(** A computation that returns or throws; for an [async] function, a promise
    that is fulfilled or rejected. *)
Definition M (A : Type) : Type := Result Exn A.

Definition bind {A B : Type} (c : M A) (k : A -> M B) : M B :=
  match c with
  | Ok a => k a
  | Throw e => Throw e
  end.

Notation "x <- c ;; k" := (bind c (fun x => k))
  (at level 61, c at next level, right associativity).

(** [try { body } catch (error) { handler }] *)
Definition try_catch {A : Type} (body : M A) (handler : Exn -> M A) : M A :=
  match body with
  | Ok a => Ok a
  | Throw e => handler e
  end.

Record QuizOption := { option_id : str; option_text : str }.

(** [QuizQuestion] as the values are at run time: [id], [answer] and
    [subject] go through [Number], [String] or arithmetic and have the type
    declared; [question] and [solution] hold whatever the [||] gave. *)
Record QuizQuestion := {
  id : float;
  question : Value;
  options : list QuizOption;
  answer : str;
  solution : Value;
  subject : str
}.

Definition FALLBACK_DATA : list QuizQuestion :=
  [ {| id := 1%float;
       subject := lit "Mathematics";
       question := VString (lit "If $f(x) = x^2 + 2x + 1$, what is $f(1)$?");
       options := [];
       answer := lit "4";
       solution := VString
         (lit "Substitute $x=1$: $f(1) = 1^2 + 2(1) + 1 = 1 + 2 + 1 = 4$.") |} ].

(** Truthiness ([ToBoolean]). *)
Definition truthy (v : Value) : bool :=
  match v with
  | VUndefined | VNull => false
  | VBool b => b
  | VNumber n => negb (PrimFloat.is_nan n || PrimFloat.eqb n 0%float)
  | VString s => match s with [] => false | _ :: _ => true end
  | VArray _ | VObject _ | VFunction _ => true
  end.

(** [a || b] *)
Definition or_else (a b : Value) : Value := if truthy a then a else b.

Fixpoint own_property (name : str) (props : list (str * Value)) : option Value :=
  match props with
  | [] => None
  | (k, v) :: rest => if str_eqb k name then Some v else own_property name rest
  end.

(** [v.name] for the names that the service reads ([questions], [question],
    [gold], [answer], [subject], [index], [solution]): none of them is a
    property of a prototype, so only an object can have one. *)
Definition get (v : Value) (name : str) : M Value :=
  match v with
  | VUndefined | VNull =>
      Throw (TypeError (lit "Cannot read properties of null or undefined"))
  | VObject props =>
      Ok (match own_property name props with Some x => x | None => VUndefined end)
  | _ => Ok VUndefined
  end.

(** [Array.isArray(v)] *)
Definition isArray (v : Value) : bool :=
  match v with VArray _ => true | _ => false end.

(** The elements of an array. *)
Definition elements (v : Value) : list Value :=
  match v with VArray items => items | _ => [] end.

(** [typeof v === 'object'] *)
Definition typeof_object (v : Value) : bool :=
  match v with VNull | VArray _ | VObject _ => true | _ => false end.

(** [String.prototype.toLowerCase], on the letters A to Z. *)
Definition lower (c : ascii) : ascii :=
  let n := nat_of_ascii c in
  if (65 <=? n) && (n <=? 90) then ascii_of_nat (n + 32) else c.

Definition toLowerCase (s : str) : str := map lower s.

Definition nat_to_float (n : nat) : float :=
  PrimFloat.of_uint63 (Uint63.of_Z (Z.of_nat n)).

(** An element of the list that [normalizeData] keeps: an object or an array
    (the test [!item || typeof item !== 'object'] fails). *)
Definition is_item (v : Value) : bool := truthy v && typeof_object v.

(** The value of [item.name] for an item that is kept. *)
Definition field (item : Value) (name : str) : Value :=
  match item with
  | VObject props =>
      match own_property name props with Some x => x | None => VUndefined end
  | _ => VUndefined
  end.

(** The relation between an item that is kept and its question. *)
Definition normalized (item : Value) (q : QuizQuestion) : Prop :=
  question q = or_else (field item (lit "question"))
                       (VString (lit "Question Text Missing"))
  /\ solution q = or_else (field item (lit "solution")) (VString [])
  /\ options q = []
  /\ subject q <> []
  /\ truthy (question q) = true.

(** The list that [normalizeData] reads from its argument is [items]:
    [data.questions] is that array, or [data] itself is. *)
Definition data_items (data : Value) (items : list Value) : Prop :=
  (exists props, data = VObject props /\
                 own_property (lit "questions") props = Some (VArray items))
  \/ data = VArray items.

(** A value on which [?.toLowerCase()] is a call of something that is not a
    function. *)
Definition lacks_toLowerCase (v : Value) : bool :=
  match v with
  | VUndefined | VNull | VString _ => false
  | _ => true
  end.

Section Conversions.

(** [Number::toString] and [StringToNumber] of the language. *)
Variable NumberToString : float -> str.
Variable StringToNumber : str -> float.

(** [String(v)]. An object that [JSON.parse] built has no callable member of
    its own: with an own [toString] the conversion finds no primitive and
    throws, without one it reaches [Object.prototype.toString]. An array is
    joined with commas, [null] and [undefined] elements giving nothing. *)
Fixpoint ToString (v : Value) : M str :=
  match v with
  | VUndefined => Ok (lit "undefined")
  | VNull => Ok (lit "null")
  | VBool b => Ok (lit (if b then "true" else "false"))
  | VNumber n => Ok (NumberToString n)
  | VString s => Ok s
  | VFunction source => Ok source
  | VObject props =>
      match own_property (lit "toString") props with
      | Some _ => Throw (TypeError (lit "Cannot convert object to primitive value"))
      | None => Ok (lit "[object Object]")
      end
  | VArray items =>
      (fix join_items (l : list Value) : M str :=
         match l with
         | [] => Ok []
         | x :: rest =>
             let element :=
               match x with
               | VUndefined | VNull => Ok []
               | _ => ToString x
               end in
             match rest with
             | [] => element
             | _ :: _ =>
                 a <- element ;; b <- join_items rest ;; Ok (a ++ lit "," ++ b)
             end
         end) items
  end.

(** [Number(v)] *)
Definition ToNumber (v : Value) : M float :=
  match v with
  | VUndefined => Ok PrimFloat.nan
  | VNull => Ok 0%float
  | VBool b => Ok (if b then 1%float else 0%float)
  | VNumber n => Ok n
  | VString s => Ok (StringToNumber s)
  | VFunction _ => Ok PrimFloat.nan
  | VArray _ | VObject _ => s <- ToString v ;; Ok (StringToNumber s)
  end.

(** [map[key]] for the object literal of [mapSubject]: its own three
    properties, then those of [Object.prototype] that a lower-case key can
    name. *)
Definition subject_map (key : str) : Value :=
  if str_eqb key (lit "phy") then VString (lit "Physics")
  else if str_eqb key (lit "chem") then VString (lit "Chemistry")
  else if str_eqb key (lit "math") then VString (lit "Mathematics")
  else if str_eqb key (lit "constructor")
       then VFunction (lit "function Object() { [native code] }")
  else if str_eqb key (lit "__proto__") then VObject []
  else VUndefined.

(** [map[shortSubject?.toLowerCase()] || shortSubject || 'General'] *)
Definition mapSubject (shortSubject : Value) : M Value :=
  key <- match shortSubject with
         | VUndefined | VNull => Ok (lit "undefined")
         | VString s => Ok (toLowerCase s)
         | _ => Throw (TypeError (lit "shortSubject?.toLowerCase is not a function"))
         end ;;
  Ok (or_else (or_else (subject_map key) shortSubject) (VString (lit "General"))).

(** The function given to [list.map]. *)
Definition normalizeItem (item : Value) (index : nat) : M (option QuizQuestion) :=
  if negb (truthy item) || negb (typeof_object item) then Ok None
  else
    item_question <- get item (lit "question") ;;
    let qText := or_else item_question (VString (lit "Question Text Missing")) in
    item_gold <- get item (lit "gold") ;;
    item_answer <- get item (lit "answer") ;;
    let answer := or_else (or_else item_gold item_answer) (VString []) in
    item_subject <- get item (lit "subject") ;;
    subject <- mapSubject item_subject ;;
    let options := [] in
    item_index <- get item (lit "index") ;;
    idVal <- ToNumber item_index ;;
    let finalId :=
      if negb (PrimFloat.is_nan idVal) && negb (PrimFloat.eqb idVal 0%float)
      then idVal else (nat_to_float index + 1)%float in
    answer_string <- ToString answer ;;
    item_solution <- get item (lit "solution") ;;
    subject_string <- ToString subject ;;
    Ok (Some {| id := finalId;
                question := qText;
                options := options;
                answer := answer_string;
                solution := or_else item_solution (VString []);
                subject := subject_string |}).

(** [list.map(callback)]: the callback runs on the elements in order, and
    what it throws ends the loop. *)
Fixpoint map_indexed (index : nat) (l : list Value) : M (list (option QuizQuestion)) :=
  match l with
  | [] => Ok []
  | item :: rest =>
      q <- normalizeItem item index ;;
      qs <- map_indexed (S index) rest ;;
      Ok (q :: qs)
  end.

(** [.filter(q => q !== null && !!q.question)] *)
Fixpoint filter_questions (l : list (option QuizQuestion)) : list QuizQuestion :=
  match l with
  | [] => []
  | Some q :: rest =>
      if truthy (question q) then q :: filter_questions rest else filter_questions rest
  | None :: rest => filter_questions rest
  end.

Definition normalizeData (data : Value) : M (list QuizQuestion) :=
  data_questions <- get data (lit "questions") ;;
  let list :=
    if isArray data_questions then elements data_questions
    else if isArray data then elements data else [] in
  mapped <- map_indexed 0 list ;;
  Ok (filter_questions mapped).

(** The response of [fetch]: [response.ok], [response.status] and what
    [response.json()] settles to. *)
Record Response := { ok : bool; status : nat; json : M Value }.

(** [fetchQuestions], given what [fetch(DATA_URL)] settles to. The result is
    the promise it returns: [Ok] when fulfilled, [Throw] when rejected. *)
Definition fetchQuestions (fetched : M Response) : M (list QuizQuestion) :=
  try_catch
    (response <- fetched ;;
     if negb (ok response)
     then Throw (Error (lit "Network response was not ok: " ++ decimal (status response)))
     else
       rawData <- json response ;;
       normalizedData <- normalizeData rawData ;;
       if List.length normalizedData =? 0
       then Throw (Error (lit "Parsed data resulted in 0 valid questions"))
       else Ok normalizedData)
    (fun error => Ok FALLBACK_DATA).

(** The fetch gave a response that is ok, whose body is JSON that normalizes
    to the list [l], and [l] is not empty. *)
Definition loaded (fetched : M Response) (l : list QuizQuestion) : Prop :=
  exists response rawData,
    fetched = Ok response /\ ok response = true /\ json response = Ok rawData
    /\ normalizeData rawData = Ok l /\ l <> [].

End Conversions.

End DataService.

(** ** The application: subjects, filter and jump *)

Module App.

Import DataService.

(** The white space of the language among the characters of [str]: tab, line
    feed, vertical tab, form feed, carriage return, space and no-break
    space. *)
Definition is_white_space (c : ascii) : bool :=
  let n := nat_of_ascii c in
  ((9 <=? n) && (n <=? 13)) || (n =? 32) || (n =? 160).

(** [String.prototype.trimStart] and [String.prototype.trim]. *)
Fixpoint trimStart (s : str) : str :=
  match s with
  | [] => []
  | c :: s' => if is_white_space c then trimStart s' else s
  end.

Definition trim (s : str) : str := List.rev (trimStart (List.rev (trimStart s))).

(** The value of a decimal digit. *)
Definition digit_value (c : ascii) : option nat :=
  let n := nat_of_ascii c in
  if (48 <=? n) && (n <=? 57) then Some (n - 48) else None.

(** The number that the longest prefix of digits denotes, after [acc]. *)
Fixpoint parse_digits (acc : nat) (s : str) : nat :=
  match s with
  | [] => acc
  | c :: s' =>
      match digit_value c with
      | Some d => parse_digits (10 * acc + d) s'
      | None => acc
      end
  end.

(** [parseInt(input, 10)]: leading white space is skipped, one sign is read,
    then the longest prefix of decimal digits; [None] stands for [NaN]. The
    result is the integer that the digits denote: for the comparisons of
    [handleJump] with the length of a list the rounding of a large integer to
    a number makes no difference. *)
Definition parseInt (input : str) : option Z :=
  let s := trimStart input in
  let '(sign, s) :=
    match s with
    | "-"%char :: rest => ((-1)%Z, rest)
    | "+"%char :: rest => (1%Z, rest)
    | _ => (1%Z, s)
    end in
  match s with
  | [] => None
  | c :: _ =>
      match digit_value c with
      | Some _ => Some (sign * Z.of_nat (parse_digits 0 s))%Z
      | None => None
      end
  end.

(** [n.toString()] for an integer. *)
Definition number_toString (z : Z) : str :=
  if (z <? 0)%Z then "-"%char :: decimal (Z.to_nat (- z)) else decimal (Z.to_nat z).

(** The part of the state of [App] that the jump form reads and writes. *)
Record State := { currentIndex : Z; isFlipped : bool; jumpInput : str }.

(** [handleJump], for a filtered list of [length] questions. The calls of
    [preventDefault] and [blur] act on the document only. *)
Definition handleJump (length : nat) (st : State) : State :=
  let revert :=
    {| currentIndex := currentIndex st;
       isFlipped := isFlipped st;
       jumpInput := number_toString (currentIndex st + 1) |} in
  match parseInt (jumpInput st) with
  | Some num =>
      if ((1 <=? num) && (num <=? Z.of_nat length))%Z
      then {| currentIndex := (num - 1)%Z;
              isFlipped := false;
              jumpInput := jumpInput st |}
      else revert
  | None => revert
  end.

(** The effect [setJumpInput((currentIndex + 1).toString())], which runs
    when [currentIndex] has changed. *)
Definition syncJumpInput (before after : State) : State :=
  if (currentIndex before =? currentIndex after)%Z then after
  else {| currentIndex := currentIndex after;
          isFlipped := isFlipped after;
          jumpInput := number_toString (currentIndex after + 1) |}.

(** A submission of the jump form: the handler, then the effect. *)
Definition submitJump (length : nat) (st : State) : State :=
  syncJumpInput st (handleJump length st).

(** [filteredQuestions[currentIndex]] *)
Definition activeQuestion (filteredQuestions : list QuizQuestion) (st : State)
  : option QuizQuestion :=
  if (currentIndex st <? 0)%Z then None
  else nth_error filteredQuestions (Z.to_nat (currentIndex st)).

(** The order of the default [sort]: strings are compared character by
    character, by code. *)
Fixpoint str_leb (a b : str) : bool :=
  match a, b with
  | [], _ => true
  | _ :: _, [] => false
  | x :: a', y :: b' =>
      if nat_of_ascii x <? nat_of_ascii y then true
      else if nat_of_ascii y <? nat_of_ascii x then false
      else str_leb a' b'
  end.

(** [Array.prototype.sort()] on strings. Equal strings are the same string,
    so every sorting method gives this result. *)
Fixpoint insert_sorted (x : str) (l : list str) : list str :=
  match l with
  | [] => [x]
  | y :: l' => if str_leb x y then x :: l else y :: insert_sorted x l'
  end.

Fixpoint sort (l : list str) : list str :=
  match l with
  | [] => []
  | x :: l' => insert_sorted x (sort l')
  end.

(** [Array.from(new Set(l))]: each string once, where it first occurs. *)
Fixpoint unique (seen l : list str) : list str :=
  match l with
  | [] => []
  | x :: l' =>
      if existsb (str_eqb x) seen then unique seen l'
      else x :: unique (x :: seen) l'
  end.

Definition nonempty (s : str) : bool :=
  match s with [] => false | _ :: _ => true end.

(** [subjects]: ['All'], then the subjects of the questions. *)
Definition subjects (questions : list QuizQuestion) : list str :=
  let uniqueSubjects := unique [] (filter nonempty (map subject questions)) in
  let sorted := sort uniqueSubjects in
  lit "All" :: sorted.

Section Filter.

(** [String.prototype.toLowerCase]. *)
Variable toLowerCase : str -> str.

(** [v.toLowerCase().includes(lowerQ)] *)
Definition lower_includes (v : Value) (lowerQ : str) : M bool :=
  match v with
  | VString s => Ok (includes lowerQ (toLowerCase s))
  | VUndefined | VNull =>
      Throw (TypeError (lit "Cannot read properties of null or undefined"))
  | _ => Throw (TypeError (lit "toLowerCase is not a function"))
  end.

(** [q.question.toLowerCase().includes(lowerQ) ||
     q.solution?.toLowerCase().includes(lowerQ)], as the filter reads it. *)
Definition matches_query (lowerQ : str) (q : QuizQuestion) : M bool :=
  in_question <- lower_includes (question q) lowerQ ;;
  if in_question then Ok true
  else
    match solution q with
    | VUndefined | VNull => Ok false
    | v => lower_includes v lowerQ
    end.

(** [result.filter(callback)] for a callback that can throw. *)
Fixpoint filter_throwing (f : QuizQuestion -> M bool) (l : list QuizQuestion)
  : M (list QuizQuestion) :=
  match l with
  | [] => Ok []
  | q :: rest =>
      keep <- f q ;;
      kept <- filter_throwing f rest ;;
      Ok (if keep then q :: kept else kept)
  end.

(** [filteredQuestions] *)
Definition filteredQuestions (questions : list QuizQuestion)
  (searchQuery selectedSubject : str) : M (list QuizQuestion) :=
  let result := questions in
  let result :=
    if negb (str_eqb selectedSubject (lit "All"))
    then filter (fun q => str_eqb (subject q) selectedSubject) result
    else result in
  if nonempty (trim searchQuery)
  then
    let lowerQ := toLowerCase searchQuery in
    filter_throwing (matches_query lowerQ) result
  else Ok result.

End Filter.

End App.

(** * Properties *)

(** ** Strings *)

Lemma ascii_eqb_eq (a b : ascii) : ascii_eqb a b = true <-> a = b.
Proof. unfold ascii_eqb. apply Ascii.eqb_eq. Qed.

Lemma ascii_eqb_refl (a : ascii) : ascii_eqb a a = true.
Proof. apply ascii_eqb_eq. reflexivity. Qed.

Lemma ascii_eqb_neq (a b : ascii) : ascii_eqb a b = false <-> a <> b.
Proof. unfold ascii_eqb. apply Ascii.eqb_neq. Qed.

Lemma str_eqb_eq (a b : str) : str_eqb a b = true <-> a = b.
Proof.
  revert b. induction a as [|x a IH]; intros [|y b]; simpl; split; intro H;
    try reflexivity; try discriminate.
  - apply andb_true_iff in H. destruct H as [Hx Ha].
    apply ascii_eqb_eq in Hx. apply IH in Ha. congruence.
  - injection H as -> ->. rewrite ascii_eqb_refl. simpl. apply IH. reflexivity.
Qed.

Lemma str_eqb_neq (a b : str) : str_eqb a b = false <-> a <> b.
Proof.
  split; intro H.
  - intro E. apply str_eqb_eq in E. congruence.
  - destruct (str_eqb a b) eqn:E; [|reflexivity].
    apply str_eqb_eq in E. contradiction.
Qed.

Lemma strip_prefix_Some (p s r : str) : strip_prefix p s = Some r <-> s = p ++ r.
Proof.
  revert s. induction p as [|x p IH]; intros s; simpl.
  - split; intro H; congruence.
  - destruct s as [|y s].
    + split; intro H; discriminate.
    + destruct (ascii_eqb x y) eqn:E.
      * apply ascii_eqb_eq in E. subst y. rewrite IH. split; intro H; congruence.
      * apply ascii_eqb_neq in E. split; intro H; [discriminate|].
        injection H as H _. congruence.
Qed.

Lemma strip_prefix_app (p r : str) : strip_prefix p (p ++ r) = Some r.
Proof. apply strip_prefix_Some. reflexivity. Qed.

Lemma strip_prefix_length (p s r : str) :
  strip_prefix p s = Some r -> List.length s = List.length p + List.length r.
Proof. intro H. apply strip_prefix_Some in H. subst s. apply length_app. Qed.

Lemma strip_prefix_None (p s : str) :
  strip_prefix p s = None <-> (forall r, s <> p ++ r).
Proof.
  split.
  - intros H r E. rewrite E, strip_prefix_app in H. discriminate.
  - intro H. destruct (strip_prefix p s) as [r|] eqn:E; [|reflexivity].
    apply strip_prefix_Some in E. exfalso. exact (H r E).
Qed.

Lemma occurs_cons (p s : str) (c : ascii) :
  occurs p (c :: s) <-> (exists r, c :: s = p ++ r) \/ occurs p s.
Proof.
  split.
  - intros [a [b H]]. destruct a as [|x a]; simpl in H.
    + left. exists b. exact H.
    + right. injection H as _ H. exists a, b. exact H.
  - intros [[r H]|[a [b H]]].
    + exists [], r. exact H.
    + exists (c :: a), b. simpl. congruence.
Qed.

Lemma occurs_nil (p : str) : occurs p [] <-> p = [].
Proof.
  split.
  - intros [a [b H]]. symmetry in H. apply app_eq_nil in H. destruct H as [_ H].
    apply app_eq_nil in H. tauto.
  - intros ->. exists [], []. reflexivity.
Qed.

Lemma includes_occurs (p s : str) : includes p s = true <-> occurs p s.
Proof.
  induction s as [|c s IH]; simpl.
  - destruct (strip_prefix p []) as [r|] eqn:E.
    + apply strip_prefix_Some in E. split; [|reflexivity].
      intros _. exists [], r. exact E.
    + split; [discriminate|]. intros H. apply occurs_nil in H. subst p. discriminate.
  - destruct (strip_prefix p (c :: s)) as [r|] eqn:E.
    + apply strip_prefix_Some in E. split; [|reflexivity].
      intros _. exists [], r. exact E.
    + rewrite IH, occurs_cons. split; [tauto|]. intros [[r H]|H]; [|exact H].
      rewrite H, strip_prefix_app in E. discriminate.
Qed.

Lemma occurs_app_l (p a b : str) : occurs p a -> occurs p (a ++ b).
Proof.
  intros [x [y H]]. subst a. exists x, (y ++ b). now rewrite <- !app_assoc.
Qed.

Lemma occurs_app_r (p a b : str) : occurs p b -> occurs p (a ++ b).
Proof.
  intros [x [y H]]. subst b. exists (a ++ x), y. now rewrite <- !app_assoc.
Qed.

Lemma occurs_trans (p q s : str) : occurs p q -> occurs q s -> occurs p s.
Proof.
  intros [a [b H]] [c [d H']]. subst q s. exists (c ++ a), (b ++ d).
  now rewrite <- !app_assoc.
Qed.

(** ** Tokens *)

Lemma is_digit_alnum (c : ascii) : is_digit c = true -> is_alnum c = true.
Proof. unfold is_digit, is_alnum. intros ->. reflexivity. Qed.

Lemma string_of_uint_digits (d : uint) :
  Forall (fun c => is_digit c = true) (list_ascii_of_string (NilEmpty.string_of_uint d)).
Proof.
  induction d; simpl; constructor; try reflexivity; assumption.
Qed.

Lemma decimal_digits (n : nat) : Forall (fun c => is_digit c = true) (decimal n).
Proof. apply string_of_uint_digits. Qed.

Lemma list_ascii_of_string_inj (a b : string) :
  list_ascii_of_string a = list_ascii_of_string b -> a = b.
Proof.
  intro H. rewrite <- (string_of_list_ascii_of_string a),
    <- (string_of_list_ascii_of_string b). now rewrite H.
Qed.

Lemma decimal_inj (n m : nat) : decimal n = decimal m -> n = m.
Proof.
  unfold decimal. intro H. apply list_ascii_of_string_inj in H.
  assert (E : Some (Nat.to_uint n) = Some (Nat.to_uint m)).
  { rewrite <- !NilEmpty.usu. now rewrite H. }
  injection E as E.
  rewrite <- (DecimalNat.Unsigned.of_to n), <- (DecimalNat.Unsigned.of_to m).
  now rewrite E.
Qed.

Lemma token_inj (n m : nat) : token n = token m -> n = m.
Proof.
  unfold token. intro H. apply app_inv_head in H. apply app_inv_tail in H.
  now apply decimal_inj.
Qed.

Lemma token_alphanumeric (n : nat) : alphanumeric (token n).
Proof.
  unfold token, alphanumeric. rewrite !Forall_app. repeat split.
  - repeat constructor.
  - eapply Forall_impl; [|apply decimal_digits]. apply is_digit_alnum.
  - repeat constructor.
Qed.

Lemma token_not_nil (n : nat) : token n <> [].
Proof. unfold token. simpl. discriminate. Qed.

Lemma token_has_prefix (n : nat) : occurs (lit "MATHITEM") (token n).
Proof. exists [], (decimal n ++ lit "END"). reflexivity. Qed.

(** ** The Token Table *)

Lemma map_set_fresh (k : str) (v : MathSpan) (m : LatexMap) :
  ~ In k (keys m) -> map_set k v m = m ++ [(k, v)].
Proof.
  induction m as [|[k' v'] m IH]; simpl; intro H; [reflexivity|].
  destruct (str_eqb k' k) eqn:E.
  - apply str_eqb_eq in E. tauto.
  - rewrite IH; tauto.
Qed.

Lemma initial_state_ok : state_ok initial_state.
Proof. reflexivity. Qed.

Lemma token_fresh (st : RenderState) :
  state_ok st -> ~ In (token (counter st)) (keys (latexMap st)).
Proof.
  unfold state_ok. intros -> H. apply in_map_iff in H.
  destruct H as [i [E Hi]]. apply token_inj in E. apply in_seq in Hi. lia.
Qed.

Lemma replaceCallback_spec (ty : MathType) (captured : str) (st : RenderState) :
  state_ok st ->
  replaceCallback ty captured st =
    (token (counter st),
     {| counter := S (counter st);
        latexMap := latexMap st ++ [(token (counter st), {| type := ty; math := captured |})] |}).
Proof.
  intro H. unfold replaceCallback. rewrite map_set_fresh by now apply token_fresh.
  reflexivity.
Qed.

Lemma replaceCallback_ok (ty : MathType) (captured : str) (st : RenderState) :
  state_ok st -> state_ok (snd (replaceCallback ty captured st)).
Proof.
  intro H. rewrite replaceCallback_spec by assumption. unfold state_ok in *.
  cbn [snd counter latexMap]. unfold keys in *.
  rewrite seq_S, !map_app, H. reflexivity.
Qed.

(** ** The replacement loop *)

Lemma find_close_Some (close s captured rest : str) :
  find_close close s = Some (captured, rest) -> s = captured ++ close ++ rest.
Proof.
  revert captured rest. induction s as [|c s IH]; intros captured rest; simpl.
  - destruct (strip_prefix close []) as [r|] eqn:E; [|discriminate].
    intro H. injection H as <- <-. now apply strip_prefix_Some in E.
  - destruct (strip_prefix close (c :: s)) as [r|] eqn:E.
    + intro H. injection H as <- <-. now apply strip_prefix_Some in E.
    + destruct (find_close close s) as [[cap r]|] eqn:F; [|discriminate].
      intro H. injection H as <- <-. simpl. f_equal. now apply IH.
Qed.

Lemma find_close_None (close s : str) :
  find_close close s = None -> ~ occurs close s.
Proof.
  induction s as [|c s IH]; simpl.
  - destruct (strip_prefix close []) as [r|] eqn:E; [discriminate|].
    intros _ H. apply occurs_nil in H. subst close. discriminate.
  - destruct (strip_prefix close (c :: s)) as [r|] eqn:E; [discriminate|].
    destruct (find_close close s) as [[cap r]|] eqn:F; [discriminate|].
    intros _ H. apply occurs_cons in H. destruct H as [[r H]|H].
    + rewrite H, strip_prefix_app in E. discriminate.
    + now apply IH.
Qed.

Lemma match_here_Some (re : Regex) (s captured rest : str) :
  match_here re s = Some (captured, rest) ->
  s = re_open re ++ captured ++ re_close re ++ rest.
Proof.
  unfold match_here. destruct (strip_prefix (re_open re) s) as [body|] eqn:E;
    [|discriminate].
  intro H. apply find_close_Some in H. apply strip_prefix_Some in E. congruence.
Qed.

Lemma match_here_shorter (re : Regex) (s captured rest : str) :
  proper re -> match_here re s = Some (captured, rest) ->
  List.length rest < List.length s.
Proof.
  unfold proper. intros P H. apply match_here_Some in H. subst s.
  rewrite !length_app. destruct (re_open re); [now elim P|]. simpl. lia.
Qed.

(** The bound on the number of steps is never reached: any bound that is at
    least the length of the string gives the same result. *)
Lemma replace_loop_fuel (re : Regex) (ty : MathType) :
  proper re ->
  forall n s st, List.length s <= n ->
    replace_loop n re ty s st = replace_loop (List.length s) re ty s st.
Proof.
  intros P n. induction n as [n IH] using lt_wf_ind. intros s st Hn.
  destruct n as [|n].
  - destruct s; [reflexivity|simpl in Hn; lia].
  - destruct s as [|c s]; [reflexivity|].
    cbn [List.length replace_loop].
    destruct (match_here re (c :: s)) as [[captured rest]|] eqn:E.
    + pose proof (match_here_shorter _ _ _ _ P E) as L. simpl in L, Hn.
      destruct (replaceCallback ty captured st) as [id st1].
      rewrite (IH n) by lia. rewrite (IH (List.length s)) by lia. reflexivity.
    + simpl in Hn. rewrite (IH n) by lia. reflexivity.
Qed.

(** The equations of [replaceMath], as the loop of the engine reads. *)
Lemma replaceMath_nil (re : Regex) (ty : MathType) (st : RenderState) :
  replaceMath [] re ty st = ([], st).
Proof. reflexivity. Qed.

Lemma replaceMath_match (re : Regex) (ty : MathType) (s captured rest : str)
  (st : RenderState) :
  proper re -> s <> [] -> match_here re s = Some (captured, rest) ->
  replaceMath s re ty st =
    (let '(id, st1) := replaceCallback ty captured st in
     let '(out, st2) := replaceMath rest re ty st1 in
     (id ++ out, st2)).
Proof.
  intros P Hs E. unfold replaceMath. destruct s as [|c s]; [now elim Hs|].
  cbn [List.length replace_loop]. rewrite E.
  pose proof (match_here_shorter _ _ _ _ P E) as L. simpl in L.
  destruct (replaceCallback ty captured st) as [id st1].
  rewrite replace_loop_fuel by (assumption || lia). reflexivity.
Qed.

Lemma replaceMath_skip (re : Regex) (ty : MathType) (c : ascii) (s : str)
  (st : RenderState) :
  match_here re (c :: s) = None ->
  replaceMath (c :: s) re ty st =
    (let '(out, st2) := replaceMath s re ty st in (c :: out, st2)).
Proof.
  intros E. unfold replaceMath. cbn [List.length replace_loop]. rewrite E.
  reflexivity.
Qed.

(** A pass keeps the invariant, only adds entries at the end of the table,
    and numbers them from the counter it received. *)
Lemma replace_loop_state (re : Regex) (ty : MathType) (n : nat) :
  forall s st, state_ok st ->
    let st' := snd (replace_loop n re ty s st) in
    state_ok st' /\ counter st <= counter st' /\
    exists added, latexMap st' = latexMap st ++ added.
Proof.
  induction n as [|n IH]; intros s st H; cbn [replace_loop].
  - cbn [snd]. repeat split; [assumption|lia|]. exists []. now rewrite app_nil_r.
  - destruct s as [|c s].
    + cbn [snd]. repeat split; [assumption|lia|]. exists []. now rewrite app_nil_r.
    + destruct (match_here re (c :: s)) as [[captured rest]|].
      * pose proof (replaceCallback_ok ty captured _ H) as H1.
        rewrite (replaceCallback_spec ty captured _ H) in *. cbn [snd] in H1.
        specialize (IH rest _ H1).
        destruct (replace_loop n re ty rest _) as [out st2].
        cbn [snd counter latexMap] in *. destruct IH as [A [B [added C]]].
        split; [exact A|]. split; [lia|].
        eexists. rewrite C, <- app_assoc. reflexivity.
      * specialize (IH s st H).
        destruct (replace_loop n re ty s st) as [out st2]. exact IH.
Qed.

Lemma replaceMath_state (re : Regex) (ty : MathType) (s : str) (st : RenderState) :
  state_ok st ->
  state_ok (snd (replaceMath s re ty st)) /\
  counter st <= counter (snd (replaceMath s re ty st)).
Proof.
  intro H. destruct (replace_loop_state re ty (List.length s) s _ H) as [A [B _]].
  split; assumption.
Qed.

(** One pass of [protect] in a goal: names its result and records that the
    invariant holds after it. *)
Ltac run_pass H t st H' :=
  match goal with
  | |- context [replaceMath ?s ?re ?ty ?st0] =>
      pose proof (replaceMath_state re ty s _ H) as [H' _];
      destruct (replaceMath s re ty st0) as [t st]; cbn [snd] in H'
  end.

Lemma protect_state_ok (text : str) : state_ok (snd (protect text)).
Proof.
  unfold protect. pose proof initial_state_ok as H0.
  run_pass H0 t1 st1 H1. run_pass H1 t2 st2 H2.
  run_pass H2 t3 st3 H3. run_pass H3 t4 st4 H4.
  exact H4.
Qed.

(** ** Splitting and joining *)

Lemma split_loop_not_nil (n : nat) (sep s : str) : split_loop n sep s <> [].
Proof.
  destruct n as [|n]; simpl; [discriminate|].
  destruct s as [|c s]; [discriminate|].
  destruct (strip_prefix sep (c :: s)); [discriminate|].
  destruct (split_loop n sep s); discriminate.
Qed.

Lemma split_loop_fuel (sep : str) :
  sep <> [] ->
  forall n s, List.length s <= n ->
    split_loop n sep s = split_loop (List.length s) sep s.
Proof.
  intros P n. induction n as [n IH] using lt_wf_ind. intros s Hn.
  destruct n as [|n].
  - destruct s; [reflexivity|simpl in Hn; lia].
  - destruct s as [|c s]; [reflexivity|].
    cbn [List.length split_loop]. simpl in Hn.
    destruct (strip_prefix sep (c :: s)) as [rest|] eqn:E.
    + apply strip_prefix_length in E. simpl in E.
      assert (0 < List.length sep) by (destruct sep; [now elim P|simpl; lia]).
      rewrite (IH n) by lia. rewrite (IH (List.length s)) by lia. reflexivity.
    + rewrite (IH n) by lia. reflexivity.
Qed.

Lemma replace_all_nil (sep r : str) : replace_all sep r [] = [].
Proof. reflexivity. Qed.

Lemma replace_all_match (sep r s rest : str) :
  sep <> [] -> strip_prefix sep s = Some rest ->
  replace_all sep r s = r ++ replace_all sep r rest.
Proof.
  intros P E. unfold replace_all, split.
  pose proof (strip_prefix_length _ _ _ E) as L.
  destruct s as [|c s].
  - apply strip_prefix_Some in E. destruct sep; [now elim P|discriminate].
  - cbn [List.length split_loop]. rewrite E.
    assert (0 < List.length sep) by (destruct sep; [now elim P|simpl; lia]).
    simpl in L. rewrite split_loop_fuel by (assumption || lia).
    pose proof (@split_loop_not_nil (List.length rest) sep rest) as N.
    destruct (split_loop (List.length rest) sep rest); [now elim N|reflexivity].
Qed.

Lemma replace_all_skip (sep r : str) (c : ascii) (s : str) :
  strip_prefix sep (c :: s) = None ->
  replace_all sep r (c :: s) = c :: replace_all sep r s.
Proof.
  intros E. unfold replace_all, split. cbn [List.length split_loop]. rewrite E.
  pose proof (@split_loop_not_nil (List.length s) sep s) as N.
  destruct (split_loop (List.length s) sep s) as [|seg segs]; [now elim N|].
  destruct segs; reflexivity.
Qed.

(** A string without an occurrence of the separator is left as it is. *)
Lemma replace_all_absent (sep r s : str) :
  ~ occurs sep s -> replace_all sep r s = s.
Proof.
  induction s as [|c s IH]; intro H; [reflexivity|].
  destruct (strip_prefix sep (c :: s)) as [rest|] eqn:E.
  - apply strip_prefix_Some in E. elim H. exists [], rest. exact E.
  - rewrite replace_all_skip by assumption. f_equal. apply IH.
    intro O. apply H. apply occurs_cons. now right.
Qed.

(** A prefix made of characters other than the first one of [r] is a prefix
    of the result only if it was one of the string. *)
Lemma replace_all_prefix (sep r' : str) (x : ascii) (s q t : str) :
  sep <> [] -> ~ In x q ->
  replace_all sep (x :: r') s = q ++ t -> exists t', s = q ++ t'.
Proof.
  intros P. revert q t. induction s as [|c s IH]; intros q t Hx H.
  - rewrite replace_all_nil in H. symmetry in H. apply app_eq_nil in H.
    destruct H as [-> _]. exists []. reflexivity.
  - destruct q as [|y q]; [eexists; reflexivity|].
    destruct (strip_prefix sep (c :: s)) as [rest|] eqn:E.
    + rewrite (replace_all_match _ _ _ _ P E) in H. simpl in H. injection H as H _.
      elim Hx. left. congruence.
    + rewrite replace_all_skip in H by assumption. simpl in H.
      injection H as -> H. apply IH in H; [|intro; apply Hx; now right].
      destruct H as [t' ->]. exists t'. reflexivity.
Qed.

(** An occurrence of [p] in [a ++ b] lies in [a], lies in [b], or takes the
    last character of [a]. *)
Lemma occurs_app_inv (p a b : str) (y : ascii) (a' : str) :
  a = a' ++ [y] -> occurs p (a ++ b) -> occurs p a \/ occurs p b \/ In y p.
Proof.
  intros Ha [u [v H]]. apply app_eq_app in H. destruct H as [l [[E1 E2]|[E1 E2]]].
  - (* the occurrence starts inside [a], or at its end: [a = u ++ l] *)
    apply app_eq_app in E2. destruct E2 as [l' [[F1 F2]|[F1 F2]]].
    + (* [p = l ++ l']: it runs over the junction *)
      destruct l as [|z l].
      * right. left. simpl in F1. subst p. exists [], v. exact F2.
      * right. right. subst p. apply in_or_app. left.
        destruct (exists_last (l := z :: l)) as [l0 [w Hl]]; [discriminate|].
        rewrite Hl in *. rewrite Ha in E1. rewrite app_assoc in E1.
        apply app_inj_tail in E1. destruct E1 as [_ <-].
        apply in_or_app. right. now left.
    + (* [l = p ++ l']: it ends inside [a] *)
      left. exists u, l'. congruence.
  - (* the occurrence starts in [b] *)
    right. left. exists l, v. exact E2.
Qed.

(** Replacing [sep] by a fragment [r] whose first and last characters are
    foreign to [p], and which does not contain [p], leaves no occurrence of
    [p] when [p] is the separator itself or was not in the string. *)
Lemma replace_all_clean (sep r p : str) (x y : ascii) (r1 r2 : str) :
  sep <> [] -> r = x :: r1 -> r = r2 ++ [y] ->
  ~ In x p -> ~ In y p -> ~ occurs p r ->
  forall s, p = sep \/ ~ occurs p s -> ~ occurs p (replace_all sep r s).
Proof.
  intros P Hx Hy Nx Ny Nr s. remember (List.length s) as n eqn:Hn. revert s Hn.
  induction n as [n IH] using lt_wf_ind. intros s Hn Hs O.
  destruct s as [|c s].
  - rewrite replace_all_nil in O. apply occurs_nil in O. subst p.
    apply Nr. exists [], r. reflexivity.
  - destruct (strip_prefix sep (c :: s)) as [rest|] eqn:E.
    + rewrite (replace_all_match _ _ _ _ P E) in O.
      pose proof (strip_prefix_length _ _ _ E) as L.
      assert (0 < List.length sep) by (destruct sep; [now elim P|simpl; lia]).
      apply (occurs_app_inv _ _ _ y r2 Hy) in O. destruct O as [O|[O|O]]; try tauto.
      revert O. apply (IH (List.length rest)); [lia|reflexivity|].
      destruct Hs as [Hs|Hs]; [now left|right].
      intro O. apply Hs. apply strip_prefix_Some in E. rewrite E.
      now apply occurs_app_r.
    + rewrite replace_all_skip in O by assumption.
      apply occurs_cons in O. destruct O as [[t O]|O].
      * rewrite <- replace_all_skip in O by assumption. rewrite Hx in O.
        apply replace_all_prefix in O; [|assumption|assumption].
        destruct O as [t' O]. destruct Hs as [Hs|Hs].
        -- subst p. rewrite O, strip_prefix_app in E. discriminate.
        -- apply Hs. exists [], t'. exact O.
      * revert O. simpl in Hn. apply (IH (List.length s)); [lia|reflexivity|].
        destruct Hs as [Hs|Hs]; [now left|right].
        intro O. apply Hs. apply occurs_cons. now right.
Qed.

Lemma alphanumeric_no_angle (p : str) :
  alphanumeric p -> ~ In "<"%char p /\ ~ In ">"%char p.
Proof.
  intro H. unfold alphanumeric in H. rewrite Forall_forall in H.
  split; intro I; apply H in I; discriminate.
Qed.

Lemma replace_all_token_clean (sep r p : str) :
  sep <> [] -> markup r -> alphanumeric p -> ~ occurs p r ->
  forall s, p = sep \/ ~ occurs p s -> ~ occurs p (replace_all sep r s).
Proof.
  intros P [body Hr] A Nr. apply alphanumeric_no_angle in A. destruct A as [A1 A2].
  apply (replace_all_clean sep r p "<"%char ">"%char (body ++ lit ">") (lit "<" ++ body));
    assumption.
Qed.

(** ** Placeholders in a string *)

Lemma token_placeholder (n : nat) : placeholder (token n).
Proof.
  exists (decimal n). split; [|split; [apply decimal_digits|reflexivity]].
  unfold decimal. destruct (Nat.to_uint n) eqn:E; simpl; try discriminate.
  (* [Nat.to_uint] never gives the empty numeral *)
  exfalso. assert (H : Nat.of_uint (Nat.to_uint n) = n) by apply DecimalNat.Unsigned.of_to.
  pose proof (DecimalNat.Unsigned.to_of (Nat.to_uint n)) as T.
  rewrite H, E in T. discriminate.
Qed.

Lemma not_includes (p s : str) : includes p s = false -> ~ occurs p s.
Proof. intros H O. apply includes_occurs in O. congruence. Qed.


(** ** Texts without a match *)

Lemma replace_loop_no_match (re : Regex) (ty : MathType) (n : nat) :
  forall s st, (forall a b, s = a ++ b -> match_here re b = None) ->
    replace_loop n re ty s st = (s, st).
Proof.
  induction n as [|n IH]; intros s st H; [reflexivity|].
  destruct s as [|c s]; [reflexivity|]. cbn [replace_loop].
  rewrite (H [] (c :: s) eq_refl). rewrite IH; [reflexivity|].
  intros a b E. apply (H (c :: a) b). simpl. now rewrite E.
Qed.


Lemma match_here_two (re : Regex) (b captured rest : str) (x : ascii) (o cl : str) :
  re_open re = x :: o -> re_close re = x :: cl ->
  match_here re b = Some (captured, rest) -> 2 <= count_occ ascii_dec b x.
Proof.
  intros O C H. apply match_here_Some in H. rewrite H, O, C.
  cbn [app count_occ]. destruct (ascii_dec x x) as [_|N]; [|now elim N].
  rewrite !count_occ_app. cbn [app count_occ].
  destruct (ascii_dec x x) as [_|N]; [|now elim N]. lia.
Qed.

Lemma replaceMath_unmatched_count (re : Regex) (x : ascii) (o cl : str) (s : str)
  (ty : MathType) (st : RenderState) :
  re_open re = x :: o -> re_close re = x :: cl ->
  count_occ ascii_dec s x <= 1 -> replaceMath s re ty st = (s, st).
Proof.
  intros O C H. apply replace_loop_no_match. intros a b E.
  destruct (match_here re b) as [[captured rest]|] eqn:M; [|reflexivity].
  apply (match_here_two _ _ _ _ _ _ _ O C) in M.
  rewrite E, count_occ_app in H. lia.
Qed.


Lemma replaceMath_dollar_unmatched (s : str) (ty : MathType) (st : RenderState) :
  count_occ ascii_dec s "$"%char <= 1 -> replaceMath s re_dollar ty st = (s, st).
Proof. now apply (replaceMath_unmatched_count re_dollar "$"%char [] []). Qed.




(** ** Restoration *)

Section RendererFacts.

Variable Exn : Type.
Variable exn_to_string : Exn -> str.
Variable marked_parse : MarkedOptions -> str -> Result Exn str.
Variable katex_renderToString : str -> KatexOptions -> Result Exn str.

Local Abbreviation restoreEntry := (restore_entry exn_to_string katex_renderToString).
Local Abbreviation restoreAll := (restore exn_to_string katex_renderToString).
Local Abbreviation fragmentOf := (fragment exn_to_string katex_renderToString).
Local Abbreviation render := (htmlContent exn_to_string marked_parse katex_renderToString).

Lemma restore_entry_fragment (rawHtml id : str) (data : MathSpan) :
  restoreEntry rawHtml (id, data) = replace_all id (fragmentOf data) rawHtml.
Proof.
  unfold restore_entry, fragment, replace_all.
  destruct (katex_renderToString (math data) (katex_options data)); reflexivity.
Qed.

Lemma restore_snoc (m : LatexMap) (entry : str * MathSpan) (rawHtml : str) :
  restoreAll (m ++ [entry]) rawHtml = restoreEntry (restoreAll m rawHtml) entry.
Proof. unfold restore. now rewrite fold_left_app. Qed.

(** The tokens of a table whose fragments are elements free of them do not
    survive the restoration. *)
Lemma restore_clean (m : LatexMap) (rawHtml : str) :
  (forall k, In k (keys m) -> k <> [] /\ alphanumeric k) ->
  (forall id data, In (id, data) m ->
     markup (fragmentOf data) /\
     forall k, In k (keys m) -> ~ occurs k (fragmentOf data)) ->
  forall k, In k (keys m) -> ~ occurs k (restoreAll m rawHtml).
Proof.
  induction m as [|[id data] m IH] using rev_ind; intros K F k Hk; [destruct Hk|].
  rewrite restore_snoc, restore_entry_fragment.
  assert (Hid : In id (keys (m ++ [(id, data)]))).
  { unfold keys. rewrite map_app. apply in_or_app. right. now left. }
  destruct (F id data) as [M N]; [apply in_or_app; right; now left|].
  apply replace_all_token_clean.
  - apply K, Hid.
  - exact M.
  - apply K, Hk.
  - apply N, Hk.
  - unfold keys in Hk. rewrite map_app in Hk. apply in_app_or in Hk.
    destruct Hk as [Hk|[Hk|[]]]; [right|left; now symmetry].
    apply IH; [| |exact Hk].
    + intros k' Hk'. apply K. unfold keys. rewrite map_app. apply in_or_app. now left.
    + intros id' data' H'. destruct (F id' data') as [M' N'];
        [apply in_or_app; now left|].
      split; [exact M'|]. intros k' Hk'. apply N'.
      unfold keys. rewrite map_app. apply in_or_app. now left.
Qed.

Lemma state_ok_keys (st : RenderState) :
  state_ok st -> forall k, In k (keys (latexMap st)) -> k <> [] /\ alphanumeric k.
Proof.
  intros H k Hk. rewrite H in Hk. apply in_map_iff in Hk. destruct Hk as [n [<- _]].
  split; [apply token_not_nil|apply token_alphanumeric].
Qed.

(** What [htmlContent] returns for a text that is not empty. *)
Lemma htmlContent_unfold (g : MarkedOptions) (text : str) :
  text <> [] ->
  render g text =
    (match marked_parse {| gfm := true; breaks := true |} (fst (protect text)) with
     | Throw e => Throw e
     | Ok rawHtml => Ok (restoreAll (latexMap (snd (protect text))) rawHtml)
     end, {| gfm := true; breaks := true |}).
Proof.
  intro H. unfold htmlContent.
  destruct text as [|c text]; [now elim H|].
  destruct (protect (c :: text)) as [protectedText st]. cbn [fst snd setOptions gfm breaks].
  destruct (marked_parse _ protectedText); reflexivity.
Qed.

Lemma restore_nil (rawHtml : str) : restoreAll [] rawHtml = rawHtml.
Proof. reflexivity. Qed.

Lemma restore_fold (m : LatexMap) (rawHtml : str) :
  restoreAll m rawHtml =
    fold_left (fun html entry => replace_all (fst entry) (fragmentOf (snd entry)) html)
              m rawHtml.
Proof.
  revert rawHtml. induction m as [|[id data] m IH]; intro rawHtml; [reflexivity|].
  cbn [fold_left fst snd]. rewrite <- IH, <- restore_entry_fragment. reflexivity.
Qed.

(** C5, as amended. The error fragment is the opening tag, then the captured
    source between two single dollar signs, then the closing tag: the text of
    the element is [$source$] whatever delimiters the span had in the input
    (the fragment does not depend on the type of the span). *)
Theorem C5_error_fragment_dollar_wrapped (e : Exn) (data : MathSpan) (ty : MathType) :
  error_fragment exn_to_string e data =
    span_open exn_to_string e ++ (lit "$" ++ math data ++ lit "$") ++ lit "</span>"
  /\ error_fragment exn_to_string e {| type := ty; math := math data |} =
     error_fragment exn_to_string e data
  /\ (forall rawHtml id,
        katex_renderToString (math data) (katex_options data) = Throw e ->
        restoreEntry rawHtml (id, data) =
          join (span_open exn_to_string e ++ (lit "$" ++ math data ++ lit "$") ++ lit "</span>")
               (split id rawHtml)).
Proof.
  split; [|split].
  - unfold error_fragment. now rewrite <- !app_assoc.
  - reflexivity.
  - intros rawHtml id H. unfold restore_entry. rewrite H.
    unfold error_fragment. now rewrite <- !app_assoc.
Qed.

(** C7. [\[x+1\]] and [$$x+1$$] give the same working text and the same
    table, whose only span is of type block with source [x+1]; KaTeX is called
    for it with [displayMode] set, and the two renders are equal. *)
Theorem C7_block_delimiters_equivalent (g : MarkedOptions) :
  protect (lit "\[x+1\]") =
    (token 0, {| counter := 1;
                 latexMap := [(token 0, {| type := block; math := lit "x+1" |})] |})
  /\ protect (lit "$$x+1$$") = protect (lit "\[x+1\]")
  /\ displayMode (katex_options {| type := block; math := lit "x+1" |}) = true
  /\ render g (lit "\[x+1\]") = render g (lit "$$x+1$$")
  /\ fst (render g (lit "$$x+1$$")) =
       match marked_parse {| gfm := true; breaks := true |} (token 0) with
       | Throw e => Throw e
       | Ok rawHtml =>
           Ok (match katex_renderToString (lit "x+1")
                       {| displayMode := true; throwOnError := false;
                          output := lit "html"; trust := true |} with
               | Ok rendered => join rendered (split (token 0) rawHtml)
               | Throw e =>
                   join (error_fragment exn_to_string e {| type := block; math := lit "x+1" |})
                        (split (token 0) rawHtml)
               end)
       end.
Proof.
  repeat split.
  rewrite htmlContent_unfold by discriminate. reflexivity.
Qed.

(** C8. The only thing a call leaves behind is the options of [marked], and
    it sets them before it reads them: the HTML of a text does not depend on
    the options found, each call of a session returns what a call on its own
    returns, and in every call the table is built from an empty one with the
    counter at 0, so its keys are the tokens 0, 1, ... in order. *)
Theorem C8_stateless_across_calls (g1 g2 : MarkedOptions) (text : str) (texts : list str) :
  fst (render g1 text) = fst (render g2 text)
  /\ fst (render_all exn_to_string marked_parse katex_renderToString g1 texts) =
       map (fun t => fst (render g2 t)) texts
  /\ counter initial_state = 0 /\ latexMap initial_state = []
  /\ keys (latexMap (snd (protect text))) =
       map token (seq 0 (List.length (latexMap (snd (protect text))))).
Proof.
  assert (I : forall a b t, fst (render a t) = fst (render b t)).
  { intros a b [|c t]; [reflexivity|]. now rewrite !htmlContent_unfold by discriminate. }
  split; [apply I|]. split; [|split; [reflexivity|split; [reflexivity|]]].
  - revert g1. induction texts as [|t texts IH]; intro g1; [reflexivity|].
    cbn [render_all map]. specialize (I g1 g2 t).
    destruct (render g1 t) as [r g']. specialize (IH g').
    destruct (render_all _ _ _ g' texts) as [rs g'']. cbn [fst] in *. congruence.
  - pose proof (protect_state_ok text) as H. unfold state_ok in H.
    rewrite H. f_equal. f_equal.
    apply (f_equal (@List.length str)) in H. unfold keys in H.
    rewrite !length_map, length_seq in H. congruence.
Qed.

(** C9. The [block] property is not read: whatever its value, the component
    returns the same element, class and HTML alike. *)
Theorem C9_block_flag_unused (g : MarkedOptions) (text : str) (cls : option str)
  (b1 b2 : option bool) :
  LatexRenderer exn_to_string marked_parse katex_renderToString g
    {| text := text; className := cls; block_prop := b1 |} =
  LatexRenderer exn_to_string marked_parse katex_renderToString g
    {| text := text; className := cls; block_prop := b2 |}.
Proof. reflexivity. Qed.

End RendererFacts.

(** ** Extraction *)

(** C2. The four rules run in the order [$$..$$], [\[..\]], [\(..\)], [$..$],
    each on the text that the rule before it returned. On [$$x^2$$ and $y$]
    they give one block span [x^2] and one inline span [y]; on [$a$$b$] the
    double-dollar rule finds nothing and the single-dollar rule gives the two
    inline spans [a] and [b]. *)
Theorem C2_extraction_precedence :
  (forall text,
     protect text =
       (let p1 := replaceMath text re_double_dollar block initial_state in
        let p2 := replaceMath (fst p1) re_bracket block (snd p1) in
        let p3 := replaceMath (fst p2) re_paren inline (snd p2) in
        replaceMath (fst p3) re_dollar inline (snd p3)))
  /\ protect (lit "$$x^2$$ and $y$") =
       (lit "MATHITEM0END and MATHITEM1END",
        {| counter := 2;
           latexMap := [(token 0, {| type := block; math := lit "x^2" |});
                        (token 1, {| type := inline; math := lit "y" |})] |})
  /\ replaceMath (lit "$a$$b$") re_double_dollar block initial_state =
       (lit "$a$$b$", initial_state)
  /\ protect (lit "$a$$b$") =
       (lit "MATHITEM0ENDMATHITEM1END",
        {| counter := 2;
           latexMap := [(token 0, {| type := inline; math := lit "a" |});
                        (token 1, {| type := inline; math := lit "b" |})] |}).
Proof.
  split; [|repeat split].
  intro text. unfold protect.
  destruct (replaceMath text re_double_dollar block initial_state) as [t1 s1].
  cbn [fst snd]. destruct (replaceMath t1 re_bracket block s1) as [t2 s2].
  cbn [fst snd]. destruct (replaceMath t2 re_paren inline s2) as [t3 s3].
  cbn [fst snd]. destruct (replaceMath t3 re_dollar inline s3) as [t4 s4].
  reflexivity.
Qed.

(** C3, as amended. The keys of the table are the tokens of 0, 1, ... up to
    the counter, one per span in the order of extraction: they are pairwise
    different and made of letters and digits only. A token can occur in the
    text given to the renderer, but only in a text that contains [MATHITEM]. *)
Theorem C3_tokens_unique_alphanumeric (text : str) :
  keys (latexMap (snd (protect text))) = map token (seq 0 (counter (snd (protect text))))
  /\ NoDup (keys (latexMap (snd (protect text))))
  /\ Forall alphanumeric (keys (latexMap (snd (protect text))))
  /\ (forall k, In k (keys (latexMap (snd (protect text)))) ->
        occurs k text -> occurs (lit "MATHITEM") text).
Proof.
  pose proof (protect_state_ok text) as H. unfold state_ok in H.
  split; [exact H|]. rewrite H. split; [|split].
  - apply Injective_map_NoDup; [|apply seq_NoDup].
    intros n m E. now apply token_inj.
  - apply Forall_forall. intros k Hk. apply in_map_iff in Hk.
    destruct Hk as [n [<- _]]. apply token_alphanumeric.
  - intros k Hk O. apply in_map_iff in Hk. destruct Hk as [n [<- _]].
    exact (occurs_trans _ _ _ (token_has_prefix n) O).
Qed.

Lemma C3_tokens_unique_alphanumeric_witness :
  occurs (lit "MATHITEM") (lit "MATHITEM0END $x$").
Proof.
  apply (proj2 (proj2 (proj2 (C3_tokens_unique_alphanumeric (lit "MATHITEM0END $x$"))))
           (token 0)).
  - simpl. left. reflexivity.
  - exists [], (lit " $x$"). reflexivity.
Defined.

(** The token of the first span of [MATHITEM0END $x$] is already in the
    text: after the extraction the working text shows it twice. *)
Lemma C3_collision_counterexample :
  In (token 0) (keys (latexMap (snd (protect (lit "MATHITEM0END $x$")))))
  /\ occurs (token 0) (lit "MATHITEM0END $x$")
  /\ fst (protect (lit "MATHITEM0END $x$")) = lit "MATHITEM0END MATHITEM0END".
Proof.
  split; [|split].
  - simpl. left. reflexivity.
  - exists [], (lit " $x$"). reflexivity.
  - reflexivity.
Qed.

(** ** Renders of particular texts *)

(** A text that is a placeholder and has no math goes through the Markdown
    transform and comes out with the placeholder in it. *)
Lemma C1_token_leak_counterexample :
  fst (htmlContent (fun e : str => e) paragraph katex_span default_options
         (lit "MATHITEM5END"))
    = Ok (lit "<p>MATHITEM5END</p>" ++ newline)
  /\ leaks (lit "<p>MATHITEM5END</p>" ++ newline).
Proof.
  split; [reflexivity|].
  exists (token 5). split; [apply token_placeholder|].
  exists (lit "<p>"), (lit "</p>" ++ newline). reflexivity.
Qed.

(** For [\[x\]] and a KaTeX that throws, the text of the error element is
    [$x$], not [x]. *)
Lemma C5_delimiters_counterexample :
  error_fragment (fun e : str => e) (lit "ParseError") {| type := block; math := lit "x" |}
    <> span_open (fun e : str => e) (lit "ParseError") ++ lit "x" ++ lit "</span>"
  /\ fst (htmlContent (fun e : str => e) paragraph katex_throws default_options (lit "\[x\]"))
     = Ok (lit "<p>" ++ span_open (fun e : str => e) (lit "ParseError")
             ++ lit "$x$" ++ lit "</span></p>" ++ newline).
Proof.
  split; [|reflexivity]. intro H. vm_compute in H. discriminate.
Qed.

Lemma C5_error_fragment_dollar_wrapped_witness :
  restore_entry (fun e : str => e) katex_throws (lit "<p>MATHITEM0END</p>")
    (token 0, {| type := block; math := lit "x" |})
  = join (span_open (fun e : str => e) (lit "ParseError")
            ++ (lit "$" ++ lit "x" ++ lit "$") ++ lit "</span>")
         (split (token 0) (lit "<p>MATHITEM0END</p>")).
Proof.
  apply (proj2 (proj2 (C5_error_fragment_dollar_wrapped str (fun e => e) katex_throws
           (lit "ParseError") {| type := block; math := lit "x" |} block))
           (lit "<p>MATHITEM0END</p>") (token 0) eq_refl).
Defined.


(** ** The data service *)

Section DataServiceFacts.

Variable NumberToString : float -> str.
Variable StringToNumber : str -> float.

Local Abbreviation fetchQuestions :=
  (DataService.fetchQuestions NumberToString StringToNumber).
Local Abbreviation normalizeData :=
  (DataService.normalizeData NumberToString StringToNumber).

Lemma filter_questions_truthy (l : list (option DataService.QuizQuestion)) :
  Forall (fun q => DataService.truthy (DataService.question q) = true)
         (DataService.filter_questions l).
Proof.
  induction l as [|[q|] l IH]; simpl; [constructor| |exact IH].
  destruct (DataService.truthy (DataService.question q)) eqn:E; [|exact IH].
  constructor; assumption.
Qed.

Lemma normalizeData_truthy (data : DataService.Value) (l : list DataService.QuizQuestion) :
  normalizeData data = Ok l ->
  Forall (fun q => DataService.truthy (DataService.question q) = true) l.
Proof.
  unfold DataService.normalizeData, DataService.bind.
  destruct (DataService.get data (lit "questions")) as [dq|e]; [|discriminate].
  destruct (DataService.map_indexed _ _ _ _) as [mapped|e]; [|discriminate].
  intro H. injection H as <-. apply filter_questions_truthy.
Qed.

(** The promise of [fetchQuestions] is always fulfilled, with a list that is
    not empty and whose questions are truthy; a fetch that fails, a response
    that is not ok, a body that is not JSON and data without a valid question
    all give the fallback list. *)
Lemma fetchQuestions_resolves (fetched : DataService.M DataService.Response) :
  exists l, fetchQuestions fetched = Ok l /\ l <> [] /\
    Forall (fun q => DataService.truthy (DataService.question q) = true) l.
Proof.
  assert (F : DataService.FALLBACK_DATA <> [] /\
              Forall (fun q => DataService.truthy (DataService.question q) = true)
                     DataService.FALLBACK_DATA).
  { split; [discriminate|]. repeat constructor. }
  unfold DataService.fetchQuestions, DataService.try_catch, DataService.bind.
  destruct fetched as [response|e]; [|eexists; split; [reflexivity|exact F]].
  destruct (DataService.ok response); cbn [negb];
    [|eexists; split; [reflexivity|exact F]].
  destruct (DataService.json response) as [rawData|e];
    [|eexists; split; [reflexivity|exact F]].
  destruct (normalizeData rawData) as [l|e] eqn:N;
    [|eexists; split; [reflexivity|exact F]].
  destruct l as [|q l]; cbn [List.length Nat.eqb];
    [eexists; split; [reflexivity|exact F]|].
  eexists. split; [reflexivity|]. split; [discriminate|].
  exact (normalizeData_truthy _ _ N).
Qed.

Lemma fetchQuestions_fallback (fetched : DataService.M DataService.Response) :
  (forall response, fetched = Ok response ->
     DataService.ok response = true /\
     exists rawData l, DataService.json response = Ok rawData /\
       normalizeData rawData = Ok l /\ l <> []) \/
  fetchQuestions fetched = Ok DataService.FALLBACK_DATA.
Proof.
  unfold DataService.fetchQuestions, DataService.try_catch, DataService.bind.
  destruct fetched as [response|e]; [|now right].
  destruct (DataService.ok response) eqn:O; cbn [negb]; [|now right].
  destruct (DataService.json response) as [rawData|e] eqn:J; [|now right].
  destruct (normalizeData rawData) as [l|e] eqn:N; [|now right].
  destruct l as [|q l]; cbn [List.length Nat.eqb]; [now right|].
  left. intros r E. injection E as <-. split; [exact O|].
  exists rawData, (q :: l). repeat split; [exact J|exact N|discriminate].
Qed.

(** C10. For the body [{"questions":[{"question":5}]}] the promise is
    fulfilled with one question whose [question] is the number 5: the text of
    a question is not converted to a string as the answer and the subject
    are. *)
Theorem C10_question_not_coerced :
  fetchQuestions
    (Ok {| DataService.ok := true;
           DataService.status := 200;
           DataService.json :=
             Ok (DataService.VObject
                   [(lit "questions",
                     DataService.VArray
                       [DataService.VObject
                          [(lit "question", DataService.VNumber 5%float)]])]) |})
  = Ok [ {| DataService.id := 1%float;
            DataService.question := DataService.VNumber 5%float;
            DataService.options := [];
            DataService.answer := [];
            DataService.solution := DataService.VString [];
            DataService.subject := lit "General" |} ].
Proof. reflexivity. Qed.

End DataServiceFacts.

(** * Further properties of the renderer *)

(** ** What one pass does to a text *)

Lemma find_close_minimal (close s captured rest : str) :
  close <> [] -> find_close close s = Some (captured, rest) -> ~ occurs close captured.
Proof.
  intros P. revert captured rest. induction s as [|c s IH]; intros captured rest; simpl.
  - destruct (strip_prefix close []) as [r|] eqn:E; [|discriminate].
    intro H. injection H as <- <-. intro O. apply occurs_nil in O. contradiction.
  - destruct (strip_prefix close (c :: s)) as [r|] eqn:E.
    + intro H. injection H as <- <-. intro O. apply occurs_nil in O. contradiction.
    + destruct (find_close close s) as [[cap r]|] eqn:F; [|discriminate].
      intro H. injection H as <- <-. intro O. apply occurs_cons in O.
      destruct O as [[t O]|O]; [|exact (IH _ _ eq_refl O)].
      apply find_close_Some in F. rewrite F in E.
      change (c :: cap ++ close ++ r) with ((c :: cap) ++ close ++ r) in E.
      rewrite O, <- app_assoc, strip_prefix_app in E. discriminate.
Qed.

Lemma match_here_minimal (re : Regex) (s captured rest : str) :
  re_close re <> [] -> match_here re s = Some (captured, rest) ->
  ~ occurs (re_close re) captured.
Proof.
  intro P. unfold match_here.
  destruct (strip_prefix (re_open re) s) as [body|]; [|discriminate].
  apply find_close_minimal, P.
Qed.

Lemma match_here_None (re : Regex) (s : str) :
  match_here re s = None -> ~ matches_at re s.
Proof.
  unfold match_here. intros H [captured [rest E]]. subst s.
  rewrite strip_prefix_app in H. apply find_close_None in H. apply H.
  exists captured, rest. reflexivity.
Qed.

(** X1. A pass reads its text as a sequence of plain characters and matches
    whose sources make up the text: the output is that sequence with each
    match replaced by the token of the next number, the table receives the
    captured texts in that order with the type of the pass, and the counter
    advances by the number of matches. The reading is the leftmost, lazy one:
    no captured text contains the closing delimiter, and a character is left
    plain only where no delimited span starts. *)
Theorem replaceMath_pieces (re : Regex) (ty : MathType) (s : str) (st : RenderState) :
  proper re -> re_close re <> [] -> state_ok st ->
  exists ps,
    s = pieces_source re ps
    /\ replaceMath s re ty st =
         (pieces_output (counter st) ps,
          {| counter := counter st + count_matched ps;
             latexMap := latexMap st ++ pieces_entries ty (counter st) ps |})
    /\ (forall captured, In (Matched captured) ps -> ~ occurs (re_close re) captured)
    /\ (forall before c after, ps = before ++ Plain c :: after ->
          ~ matches_at re (pieces_source re (Plain c :: after))).
Proof.
  intros P Q. remember (List.length s) as n eqn:Hn. revert s st Hn.
  induction n as [n IH] using lt_wf_ind. intros s st Hn H.
  destruct s as [|c s].
  - exists []. repeat split.
    + rewrite replaceMath_nil. cbn. rewrite Nat.add_0_r, app_nil_r. now destruct st.
    + intros captured [].
    + intros before c after E. destruct before; discriminate.
  - destruct (match_here re (c :: s)) as [[captured rest]|] eqn:E.
    + pose proof (match_here_shorter _ _ _ _ P E) as L.
      pose proof (replaceCallback_ok ty captured _ H) as H1.
      rewrite (replaceMath_match re ty (c :: s) captured rest st P) by (discriminate || exact E).
      rewrite (replaceCallback_spec ty captured _ H) in *. cbn [snd] in H1.
      destruct (IH (List.length rest) ltac:(lia) rest _ eq_refl H1)
        as [ps [S1 [S2 [S3 S4]]]].
      exists (Matched captured :: ps). cbn [counter latexMap] in S2. rewrite S2.
      split; [|split; [|split]].
      * cbn [pieces_source]. rewrite <- S1. now apply match_here_Some.
      * cbn [pieces_output pieces_entries count_matched]. f_equal. f_equal.
        -- lia.
        -- now rewrite <- app_assoc.
      * intros m [M|M]; [|now apply S3]. injection M as <-.
        exact (match_here_minimal _ _ _ _ Q E).
      * intros before x after B. destruct before as [|b before]; [discriminate|].
        injection B as _ B. exact (S4 _ _ _ B).
    + rewrite (replaceMath_skip re ty c s st E).
      destruct (IH (List.length s) ltac:(simpl in Hn; lia) s st eq_refl H)
        as [ps [S1 [S2 [S3 S4]]]].
      exists (Plain c :: ps). rewrite S2. split; [|split; [|split]].
      * cbn [pieces_source]. now rewrite <- S1.
      * reflexivity.
      * intros m [M|M]; [discriminate|now apply S3].
      * intros before x after B. destruct before as [|b before].
        -- injection B as <- <-. cbn [pieces_source]. rewrite <- S1.
           now apply match_here_None.
        -- injection B as _ B. exact (S4 _ _ _ B).
Qed.

Lemma replaceMath_pieces_witness :
  exists ps,
    lit "$a$b$" = pieces_source re_dollar ps
    /\ replaceMath (lit "$a$b$") re_dollar inline initial_state =
         (pieces_output (counter initial_state) ps,
          {| counter := counter initial_state + count_matched ps;
             latexMap := latexMap initial_state
                           ++ pieces_entries inline (counter initial_state) ps |})
    /\ (forall captured, In (Matched captured) ps ->
          ~ occurs (re_close re_dollar) captured)
    /\ (forall before c after, ps = before ++ Plain c :: after ->
          ~ matches_at re_dollar (pieces_source re_dollar (Plain c :: after))).
Proof.
  apply (replaceMath_pieces re_dollar inline (lit "$a$b$") initial_state).
  - unfold proper. simpl. discriminate.
  - simpl. discriminate.
  - reflexivity.
Defined.

Lemma pieces_entries_type (ty : MathType) (ps : list Piece) :
  forall n, Forall (fun entry => type (snd entry) = ty) (pieces_entries ty n ps).
Proof.
  induction ps as [|[c|captured] ps IH]; intro n; cbn [pieces_entries].
  - constructor.
  - apply IH.
  - constructor; [reflexivity|apply IH].
Qed.

Lemma replace_loop_added (re : Regex) (ty : MathType) (n : nat) :
  forall s st, state_ok st ->
    exists added,
      latexMap (snd (replace_loop n re ty s st)) = latexMap st ++ added
      /\ Forall (fun entry => type (snd entry) = ty) added.
Proof.
  induction n as [|n IH]; intros s st H; cbn [replace_loop].
  - exists []. cbn [snd]. split; [now rewrite app_nil_r|constructor].
  - destruct s as [|c s].
    + exists []. cbn [snd]. split; [now rewrite app_nil_r|constructor].
    + destruct (match_here re (c :: s)) as [[captured rest]|].
      * pose proof (replaceCallback_ok ty captured _ H) as H1.
        rewrite (replaceCallback_spec ty captured _ H) in *. cbn [snd] in H1.
        destruct (IH rest _ H1) as [added [E F]].
        destruct (replace_loop n re ty rest _) as [out st2].
        cbn [snd latexMap] in *. eexists. split.
        -- rewrite E, <- app_assoc. reflexivity.
        -- constructor; [reflexivity|exact F].
      * destruct (IH s st H) as [added [E F]].
        destruct (replace_loop n re ty s st) as [out st2].
        exists added. split; assumption.
Qed.

Lemma replaceMath_added (re : Regex) (ty : MathType) (s : str) (st : RenderState) :
  proper re -> re_close re <> [] -> state_ok st ->
  exists added,
    latexMap (snd (replaceMath s re ty st)) = latexMap st ++ added
    /\ Forall (fun entry => type (snd entry) = ty) added.
Proof. intros _ _ H. now apply replace_loop_added. Qed.

(** X2. In the table of a render every block span comes before every inline
    span: the two block rules run first over the whole text, so the numbers of
    the tokens follow the order of the rules, not the order of the spans in
    the text. *)
Theorem protect_blocks_before_inlines (text : str) :
  exists blocks inlines,
    latexMap (snd (protect text)) = blocks ++ inlines
    /\ Forall (fun entry => type (snd entry) = block) blocks
    /\ Forall (fun entry => type (snd entry) = inline) inlines.
Proof.
  unfold protect. pose proof initial_state_ok as H0.
  assert (P1 : proper re_double_dollar /\ re_close re_double_dollar <> [])
    by (split; discriminate).
  assert (P2 : proper re_bracket /\ re_close re_bracket <> []) by (split; discriminate).
  assert (P3 : proper re_paren /\ re_close re_paren <> []) by (split; discriminate).
  assert (P4 : proper re_dollar /\ re_close re_dollar <> []) by (split; discriminate).
  destruct (replaceMath_added re_double_dollar block text _ (proj1 P1) (proj2 P1) H0)
    as [a1 [E1 F1]].
  run_pass H0 t1 st1 H1. cbn [snd latexMap initial_state app] in E1.
  destruct (replaceMath_added re_bracket block t1 _ (proj1 P2) (proj2 P2) H1)
    as [a2 [E2 F2]].
  run_pass H1 t2 st2 H2. cbn [snd] in E2.
  destruct (replaceMath_added re_paren inline t2 _ (proj1 P3) (proj2 P3) H2)
    as [a3 [E3 F3]].
  run_pass H2 t3 st3 H3. cbn [snd] in E3.
  destruct (replaceMath_added re_dollar inline t3 _ (proj1 P4) (proj2 P4) H3)
    as [a4 [E4 F4]].
  run_pass H3 t4 st4 H4. cbn [snd] in E4.
  exists (a1 ++ a2), (a3 ++ a4). cbn [snd]. split; [|split].
  - rewrite E4, E3, E2, E1. now rewrite !app_assoc.
  - apply Forall_app. split; assumption.
  - apply Forall_app. split; assumption.
Qed.

(** ** Dollar signs after the extraction *)

Lemma count_occ_not_In_zero (s : str) (x : ascii) :
  ~ In x s -> count_occ ascii_dec s x = 0.
Proof. intro H. now apply count_occ_not_In. Qed.

Lemma token_no_dollar (n : nat) : count_occ ascii_dec (token n) "$"%char = 0.
Proof.
  apply count_occ_not_In_zero. intro I.
  pose proof (token_alphanumeric n) as A. unfold alphanumeric in A.
  rewrite Forall_forall in A. apply A in I. discriminate.
Qed.

Lemma replaceMath_dollar_count (ty : MathType) (s : str) (st : RenderState) :
  count_occ ascii_dec (fst (replaceMath s re_dollar ty st)) "$"%char <= 1.
Proof.
  assert (P : proper re_dollar) by discriminate.
  remember (List.length s) as n eqn:Hn. revert s st Hn.
  induction n as [n IH] using lt_wf_ind. intros s st Hn.
  destruct s as [|c s]; [rewrite replaceMath_nil; simpl; lia|].
  destruct (match_here re_dollar (c :: s)) as [[captured rest]|] eqn:E.
  - pose proof (match_here_shorter _ _ _ _ P E) as L.
    rewrite (replaceMath_match re_dollar ty (c :: s) captured rest st P)
      by (discriminate || exact E).
    unfold replaceCallback.
    specialize (IH (List.length rest) ltac:(lia) rest
      {| counter := S (counter st);
         latexMap := map_set (token (counter st))
                       {| type := ty; math := captured |} (latexMap st) |} eq_refl).
    destruct (replaceMath rest re_dollar ty _) as [out st2]. cbn [fst] in *.
    rewrite count_occ_app, token_no_dollar. lia.
  - rewrite (replaceMath_skip re_dollar ty c s st E).
    destruct (ascii_dec c "$"%char) as [->|N].
    + (* an opening [$] without a closing one: no [$] follows *)
      unfold match_here in E. cbn in E.
      apply find_close_None in E.
      assert (Z : count_occ ascii_dec s "$"%char = 0).
      { apply count_occ_not_In_zero. intro I. apply E.
        apply in_split in I. destruct I as [a [b ->]]. exists a, b. reflexivity. }
      rewrite replaceMath_dollar_unmatched by lia. cbn [fst count_occ].
      destruct (ascii_dec "$" "$"); lia.
    + specialize (IH (List.length s) ltac:(simpl in Hn; lia) s st eq_refl).
      destruct (replaceMath s re_dollar ty st) as [out st2]. cbn [fst count_occ] in *.
      destruct (ascii_dec c "$"); [congruence|exact IH].
Qed.

(** X3. The working text that goes to the Markdown transform has at most one
    dollar sign: the last rule replaces every pair it can close, and a token
    has none. *)
Theorem protect_at_most_one_dollar (text : str) :
  count_occ ascii_dec (fst (protect text)) "$"%char <= 1.
Proof.
  unfold protect.
  destruct (replaceMath text re_double_dollar block initial_state) as [t1 st1].
  destruct (replaceMath t1 re_bracket block st1) as [t2 st2].
  destruct (replaceMath t2 re_paren inline st2) as [t3 st3].
  pose proof (replaceMath_dollar_count inline t3 st3) as H.
  destruct (replaceMath t3 re_dollar inline st3) as [t4 st4]. exact H.
Qed.

(** ** Tokens that the Markdown transform does not return *)

Section RestorationFacts.

Variable Exn : Type.
Variable exn_to_string : Exn -> str.
Variable marked_parse : MarkedOptions -> str -> Result Exn str.
Variable katex_renderToString : str -> KatexOptions -> Result Exn str.

Lemma restore_absent (m : LatexMap) (rawHtml : str) :
  (forall k, In k (keys m) -> ~ occurs k rawHtml) ->
  restore exn_to_string katex_renderToString m rawHtml = rawHtml.
Proof.
  induction m as [|[id data] m IH]; intro H; [reflexivity|].
  unfold restore. cbn [fold_left].
  rewrite (restore_entry_fragment Exn exn_to_string katex_renderToString).
  rewrite replace_all_absent by (apply H; now left).
  apply IH. intros k Hk. apply H. now right.
Qed.

(** X4. When the HTML that [marked.parse] returns shows none of the tokens of
    the table, the restoration changes nothing: the render returns that HTML
    as it is, and the math of every span is lost without an error. *)
Theorem render_tokens_dropped (g : MarkedOptions) (text rawHtml : str) :
  text <> [] ->
  marked_parse {| gfm := true; breaks := true |} (fst (protect text)) = Ok rawHtml ->
  (forall k, In k (keys (latexMap (snd (protect text)))) -> ~ occurs k rawHtml) ->
  fst (htmlContent exn_to_string marked_parse katex_renderToString g text) = Ok rawHtml.
Proof.
  intros N M A. rewrite htmlContent_unfold by assumption. cbn [fst].
  rewrite M, restore_absent by assumption. reflexivity.
Qed.

End RestorationFacts.

(** A Markdown transform that reads its text as a link reference definition
    returns no HTML for it. *)
Lemma render_tokens_dropped_witness :
  fst (htmlContent (fun e : str => e) (fun _ _ => Ok []) katex_span default_options
         (lit "[x]: $y$")) = Ok [].
Proof.
  apply (render_tokens_dropped str (fun e => e) (fun _ _ => Ok []) katex_span
           default_options (lit "[x]: $y$") []).
  - discriminate.
  - reflexivity.
  - intros k [<-|[]]. apply not_includes. reflexivity.
Defined.

(** * Further properties of the data service *)

Section DataServiceMore.

Import DataService.

Variable NumberToString : float -> str.
Variable StringToNumber : str -> float.

Local Abbreviation fetchQ := (fetchQuestions NumberToString StringToNumber).
Local Abbreviation normalize := (normalizeData NumberToString StringToNumber).
Local Abbreviation normItem := (normalizeItem NumberToString StringToNumber).
Local Abbreviation mapIndexed := (map_indexed NumberToString StringToNumber).
Local Abbreviation toStr := (ToString NumberToString).
Local Abbreviation loadedWith := (loaded NumberToString StringToNumber).

Lemma or_else_truthy (a b : Value) : truthy b = true -> truthy (or_else a b) = true.
Proof. intro H. unfold or_else. destruct (truthy a) eqn:E; assumption. Qed.

Lemma get_item (item : Value) (name : str) :
  is_item item = true -> get item name = Ok (field item name).
Proof. destruct item; try discriminate; reflexivity. Qed.

Lemma get_not_item (item : Value) :
  is_item item = false ->
  negb (truthy item) || negb (typeof_object item) = true.
Proof.
  unfold is_item. destruct (truthy item), (typeof_object item); simpl; congruence.
Qed.

(** The subject that [mapSubject] returns converts to a string that is not
    empty. *)
Lemma mapSubject_not_empty (v r : Value) (s : str) :
  mapSubject v = Ok r -> toStr r = Ok s -> s <> [].
Proof.
  unfold mapSubject, bind.
  destruct v as [| |b|n|x|items|props|src]; try discriminate.
  - intro H. injection H as <-. intro T. injection T as <-. discriminate.
  - intro H. injection H as <-. intro T. injection T as <-. discriminate.
  - intro H. injection H as <-. unfold subject_map.
    repeat (match goal with
            | |- context [str_eqb ?a ?b] => destruct (str_eqb a b)
            end; [intro T; injection T as <-; discriminate|]).
    unfold or_else at 2. cbn [truthy].
    destruct x as [|c x]; intro T; injection T as <-; discriminate.
Qed.

Lemma normalizeItem_not_item (item : Value) (index : nat) :
  is_item item = false -> normItem item index = Ok None.
Proof.
  intro H. unfold normalizeItem. now rewrite (get_not_item _ H).
Qed.

(** What the callback of [list.map] returns for an item that is kept. *)
Lemma normalizeItem_item (item : Value) (index : nat) (r : option QuizQuestion) :
  is_item item = true -> normItem item index = Ok r ->
  exists q, r = Some q
    /\ question q = or_else (field item (lit "question"))
                            (VString (lit "Question Text Missing"))
    /\ solution q = or_else (field item (lit "solution")) (VString [])
    /\ options q = []
    /\ subject q <> []
    /\ truthy (question q) = true.
Proof.
  intros I. unfold normalizeItem.
  assert (G : negb (truthy item) || negb (typeof_object item) = false).
  { unfold is_item in I. apply andb_true_iff in I. destruct I as [-> ->]. reflexivity. }
  rewrite G, !(get_item _ _ I). unfold bind at 1 2 3 4. unfold bind at 1.
  destruct (mapSubject (field item (lit "subject"))) as [sub|e] eqn:MS; [|discriminate].
  unfold bind at 1 2.
  destruct (ToNumber NumberToString StringToNumber (field item (lit "index")))
    as [idVal|e]; [|discriminate].
  unfold bind at 1. destruct (toStr (or_else _ (VString []))) as [ans|e]; [|discriminate].
  unfold bind at 1 2. destruct (toStr sub) as [subj|e] eqn:TS; [|discriminate].
  intro H. injection H as <-. eexists. split; [reflexivity|]. cbn.
  repeat split.
  - exact (mapSubject_not_empty _ _ _ MS TS).
  - now apply or_else_truthy.
Qed.

Lemma map_indexed_items (items : list Value) :
  forall index mapped, mapIndexed index items = Ok mapped ->
    Forall2 normalized (filter is_item items) (filter_questions mapped).
Proof.
  induction items as [|item items IH]; intros index mapped; cbn [map_indexed filter].
  - intro H. injection H as <-. constructor.
  - unfold bind at 1. destruct (normItem item index) as [r|e] eqn:N; [|discriminate].
    unfold bind at 1. destruct (mapIndexed (S index) items) as [rs|e] eqn:R; [|discriminate].
    intro H. injection H as <-. specialize (IH _ _ R).
    destruct (is_item item) eqn:I.
    + destruct (normalizeItem_item _ _ _ I N) as [q [-> Q]].
      cbn [filter_questions]. destruct Q as [Q1 [Q2 [Q3 [Q4 Q5]]]]. rewrite Q5.
      constructor; [|exact IH]. repeat split; assumption.
    + rewrite (normalizeItem_not_item _ index I) in N. injection N as <-. exact IH.
Qed.

Lemma normalizeData_of_items (data : Value) (items : list Value) :
  data_items data items ->
  normalize data = (mapped <- mapIndexed 0 items ;; Ok (filter_questions mapped)).
Proof.
  intros [[props [-> Q]] | ->]; unfold normalizeData, get, bind.
  - rewrite Q. reflexivity.
  - reflexivity.
Qed.

(** X6. [normalizeData] returns one question for each element of the list
    that is an object, in the order of the list: its text is the [question]
    of the item when that is truthy and ["Question Text Missing"] otherwise,
    its options are empty and its subject is not empty. Elements that are not
    objects are left out, and the test [!!q.question] of the filter never
    removes a question. *)
Theorem normalizeData_keeps_objects (data : Value) (items : list Value)
  (l : list QuizQuestion) :
  data_items data items -> normalize data = Ok l ->
  Forall2 normalized (filter is_item items) l
  /\ List.length l = List.length (filter is_item items).
Proof.
  intros D H. rewrite (normalizeData_of_items _ _ D) in H. unfold bind in H.
  destruct (mapIndexed 0 items) as [mapped|e] eqn:M; [|discriminate].
  injection H as <-. pose proof (map_indexed_items _ _ _ M) as F.
  split; [exact F|]. symmetry. exact (Forall2_length F).
Qed.

Lemma Forall2_right (A B : Type) (R : A -> B -> Prop) (P : B -> Prop)
  (la : list A) (lb : list B) :
  (forall a b, R a b -> P b) -> Forall2 R la lb -> Forall P lb.
Proof. intros H F. induction F; constructor; eauto. Qed.

Lemma normalizeData_questions (data : Value) (l : list QuizQuestion) :
  normalize data = Ok l ->
  Forall (fun q => truthy (question q) = true /\ options q = [] /\ subject q <> []) l.
Proof.
  unfold normalizeData. unfold bind at 1.
  destruct (get data (lit "questions")) as [dq|e]; [|discriminate].
  unfold bind. destruct (mapIndexed 0 _) as [mapped|e] eqn:M; [|discriminate].
  intro H. injection H as <-.
  pose proof (map_indexed_items _ _ _ M) as F.
  eapply Forall2_right; [|exact F].
  intros a b [Q1 [Q2 [Q3 [Q4 Q5]]]]. repeat split; assumption.
Qed.

(** X7. The promise of [fetchQuestions] is fulfilled whatever the fetch gives,
    with a list that is not empty; every question of it has a truthy text, no
    options and a subject that is not the empty string. *)
Theorem fetchQuestions_postcondition (fetched : M Response) :
  exists l, fetchQ fetched = Ok l /\ l <> [] /\
    Forall (fun q => truthy (question q) = true /\ options q = [] /\ subject q <> []) l.
Proof.
  assert (F : FALLBACK_DATA <> [] /\
              Forall (fun q => truthy (question q) = true /\ options q = []
                               /\ subject q <> []) FALLBACK_DATA).
  { split; [discriminate|]. constructor; [|constructor].
    repeat split. discriminate. }
  unfold fetchQuestions, try_catch, bind.
  destruct fetched as [response|e]; [|eexists; split; [reflexivity|exact F]].
  destruct (ok response); cbn [negb]; [|eexists; split; [reflexivity|exact F]].
  destruct (json response) as [rawData|e]; [|eexists; split; [reflexivity|exact F]].
  destruct (normalize rawData) as [l|e] eqn:N; [|eexists; split; [reflexivity|exact F]].
  destruct l as [|q l]; cbn [List.length Nat.eqb];
    [eexists; split; [reflexivity|exact F]|].
  eexists. split; [reflexivity|]. split; [discriminate|].
  exact (normalizeData_questions _ _ N).
Qed.

(** X8. [fetchQuestions] returns the normalized data exactly when the fetch
    is fulfilled with an ok response whose JSON normalizes to a list that is
    not empty; in every other case (rejected fetch, response not ok, body that
    is not JSON, exception in the normalization, no question) it returns the
    fallback list. *)
Theorem fetchQuestions_cases (fetched : M Response) (l : list QuizQuestion) :
  fetchQ fetched = Ok l <->
  loadedWith fetched l \/ ((forall l', ~ loadedWith fetched l') /\ l = FALLBACK_DATA).
Proof.
  unfold loaded, fetchQuestions, try_catch, bind.
  destruct fetched as [response|e].
  2:{ split.
      - intro H. injection H as <-. right. split; [|reflexivity].
        intros l' [r [d [E _]]]. discriminate.
      - intros [[r [d [E _]]]|[_ ->]]; [discriminate|reflexivity]. }
  destruct (ok response) eqn:O; cbn [negb].
  2:{ split.
      - intro H. injection H as <-. right. split; [|reflexivity].
        intros l' [r [d [E [O' _]]]]. injection E as <-. congruence.
      - intros [[r [d [E [O' _]]]]|[_ ->]]; [|reflexivity].
        injection E as <-. congruence. }
  destruct (json response) as [rawData|e] eqn:J.
  2:{ split.
      - intro H. injection H as <-. right. split; [|reflexivity].
        intros l' [r [d [E [_ [J' _]]]]]. injection E as <-. congruence.
      - intros [[r [d [E [_ [J' _]]]]]|[_ ->]]; [|reflexivity].
        injection E as <-. congruence. }
  destruct (normalize rawData) as [nd|e] eqn:N.
  2:{ split.
      - intro H. injection H as <-. right. split; [|reflexivity].
        intros l' [r [d [E [_ [J' [N' _]]]]]]. injection E as <-.
        rewrite J in J'. injection J' as <-. congruence.
      - intros [[r [d [E [_ [J' [N' _]]]]]]|[_ ->]]; [|reflexivity].
        injection E as <-. rewrite J in J'. injection J' as <-. congruence. }
  destruct nd as [|q nd]; cbn [List.length Nat.eqb].
  - split.
    + intro H. injection H as <-. right. split; [|reflexivity].
      intros l' [r [d [E [_ [J' [N' L]]]]]]. injection E as <-.
      rewrite J in J'. injection J' as <-. rewrite N in N'. injection N' as <-.
      now apply L.
    + intros [[r [d [E [_ [J' [N' L]]]]]]|[_ ->]]; [|reflexivity].
      injection E as <-. rewrite J in J'. injection J' as <-.
      rewrite N in N'. injection N' as <-. now elim L.
  - split.
    + intro H. injection H as <-. left. exists response, rawData.
      repeat split; try assumption. discriminate.
    + intros [[r [d [E [_ [J' [N' L]]]]]]|[A ->]].
      * injection E as <-. rewrite J in J'. injection J' as <-.
        rewrite N in N'. now injection N' as <-.
      * exfalso. apply (A (q :: nd)). exists response, rawData.
        repeat split; try assumption. discriminate.
Qed.

Lemma map_indexed_throws (items : list Value) (item : Value) :
  In item items -> (forall index, exists e, normItem item index = Throw e) ->
  forall index, exists e, mapIndexed index items = Throw e.
Proof.
  intros I T. induction items as [|x items IH]; [destruct I|].
  intro index. cbn [map_indexed]. unfold bind at 1.
  destruct (normItem x index) as [r|e] eqn:N; [|eexists; reflexivity].
  destruct I as [->|I].
  - destruct (T index) as [e E]. congruence.
  - destruct (IH I (S index)) as [e E]. unfold bind at 1. rewrite E.
    eexists; reflexivity.
Qed.

(** X9. One element is enough to lose the whole data set: when the list holds
    an object whose [subject] is a number, a boolean, an array or an object,
    [mapSubject] throws for it, [normalizeData] throws, and [fetchQuestions]
    returns the fallback list for a response that is otherwise good. *)
Theorem bad_subject_gives_fallback (data : Value) (items : list Value)
  (props : list (str * Value)) (v : Value) (code : nat) :
  data_items data items ->
  In (VObject props) items ->
  own_property (lit "subject") props = Some v ->
  lacks_toLowerCase v = true ->
  (exists e, mapSubject v = Throw e)
  /\ (exists e, normalize data = Throw e)
  /\ fetchQ (Ok {| ok := true; status := code; json := Ok data |}) = Ok FALLBACK_DATA.
Proof.
  intros D I S L.
  assert (MS : exists e, mapSubject v = Throw e).
  { destruct v; try discriminate; eexists; reflexivity. }
  assert (N : exists e, normalize data = Throw e).
  { rewrite (normalizeData_of_items _ _ D).
    destruct (map_indexed_throws items (VObject props) I) with (index := 0) as [e E].
    - intro index. unfold normalizeItem. cbn [truthy typeof_object negb orb].
      unfold get. unfold bind at 1 2 3 4. rewrite S.
      destruct MS as [e ->]. eexists; reflexivity.
    - rewrite E. eexists; reflexivity. }
  split; [exact MS|]. split; [exact N|].
  unfold fetchQuestions, try_catch, bind. cbn [ok json negb].
  destruct N as [e ->]. reflexivity.
Qed.

End DataServiceMore.

Section DataServiceWitnesses.

Import DataService.

Lemma normalizeData_keeps_objects_witness :
  Forall2 normalized
    (filter is_item
       [VNull; VObject []; VNumber 1%float;
        VObject [(lit "question", VString (lit "Q"));
                 (lit "subject", VString (lit "PHY"));
                 (lit "index", VNumber 7%float)]])
    [ {| id := 2%float;
         question := VString (lit "Question Text Missing");
         options := [];
         answer := [];
         solution := VString [];
         subject := lit "General" |};
      {| id := 7%float;
         question := VString (lit "Q");
         options := [];
         answer := [];
         solution := VString [];
         subject := lit "Physics" |} ]
  /\ 2 = List.length
           (filter is_item
              [VNull; VObject []; VNumber 1%float;
               VObject [(lit "question", VString (lit "Q"));
                        (lit "subject", VString (lit "PHY"));
                        (lit "index", VNumber 7%float)]]).
Proof.
  apply (normalizeData_keeps_objects (fun _ => []) (fun _ => PrimFloat.nan)
           (VObject
              [(lit "questions",
                VArray
                  [VNull; VObject []; VNumber 1%float;
                   VObject [(lit "question", VString (lit "Q"));
                            (lit "subject", VString (lit "PHY"));
                            (lit "index", VNumber 7%float)]])])).
  - left. eexists. split; reflexivity.
  - reflexivity.
Defined.

Lemma bad_subject_gives_fallback_witness :
  (exists e, mapSubject (VNumber 5%float) = Throw e)
  /\ (exists e,
        normalizeData (fun _ => []) (fun _ => PrimFloat.nan)
          (VArray [VObject [(lit "question", VString (lit "Q"))];
                   VObject [(lit "question", VString (lit "R"));
                            (lit "subject", VNumber 5%float)]]) = Throw e)
  /\ fetchQuestions (fun _ => []) (fun _ => PrimFloat.nan)
       (Ok {| ok := true; status := 200;
              json := Ok (VArray [VObject [(lit "question", VString (lit "Q"))];
                                  VObject [(lit "question", VString (lit "R"));
                                           (lit "subject", VNumber 5%float)]]) |})
     = Ok FALLBACK_DATA.
Proof.
  apply (bad_subject_gives_fallback (fun _ => []) (fun _ => PrimFloat.nan)
           (VArray [VObject [(lit "question", VString (lit "Q"))];
                    VObject [(lit "question", VString (lit "R"));
                             (lit "subject", VNumber 5%float)]])
           [VObject [(lit "question", VString (lit "Q"))];
            VObject [(lit "question", VString (lit "R"));
                     (lit "subject", VNumber 5%float)]]
           [(lit "question", VString (lit "R")); (lit "subject", VNumber 5%float)]
           (VNumber 5%float) 200).
  - right. reflexivity.
  - right. left. reflexivity.
  - reflexivity.
  - reflexivity.
Defined.

End DataServiceWitnesses.

(** * Properties of the application *)

Section AppFacts.

Import DataService App.

(** ** Reading back a number that was printed *)

Lemma decimal_not_nil (n : nat) : decimal n <> [].
Proof.
  destruct (token_placeholder n) as [ds [N [_ E]]]. unfold token in E.
  apply app_inv_head in E. apply app_inv_tail in E. congruence.
Qed.

Lemma parse_digits_uint (d : uint) :
  forall acc,
    parse_digits acc (list_ascii_of_string (NilEmpty.string_of_uint d)) =
    Nat.of_uint_acc d acc.
Proof.
  induction d; intro acc; cbn [NilEmpty.string_of_uint list_ascii_of_string Nat.of_uint_acc];
    [reflexivity|..];
    cbn [parse_digits];
    match goal with
    | |- context [digit_value ?c] =>
        let v := eval vm_compute in (digit_value c) in
        change (digit_value c) with v
    end;
    cbv iota beta; rewrite Nat.tail_mul_spec, <- IHd; f_equal; lia.
Qed.

Lemma parse_digits_decimal (n : nat) : parse_digits 0 (decimal n) = n.
Proof.
  unfold decimal. rewrite parse_digits_uint.
  exact (DecimalNat.Unsigned.of_to n).
Qed.

Lemma parseInt_digit (c : ascii) (rest : str) :
  is_digit c = true ->
  parseInt (c :: rest) = Some (1 * Z.of_nat (parse_digits 0 (c :: rest)))%Z
  /\ parseInt ("-"%char :: c :: rest)
     = Some (-1 * Z.of_nat (parse_digits 0 (c :: rest)))%Z.
Proof.
  destruct c as [[] [] [] [] [] [] [] []]; intro H; try discriminate H;
    split; reflexivity.
Qed.

(** Reading back what was printed: [parseInt] of the decimal text of an
    integer is that integer. *)
Theorem parseInt_number_toString (z : Z) : parseInt (number_toString z) = Some z.
Proof.
  unfold number_toString. destruct (z <? 0)%Z eqn:S.
  - apply Z.ltb_lt in S.
    pose proof (decimal_not_nil (Z.to_nat (- z))) as N.
    pose proof (decimal_digits (Z.to_nat (- z))) as D.
    pose proof (parse_digits_decimal (Z.to_nat (- z))) as P.
    destruct (decimal (Z.to_nat (- z))) as [|c rest]; [now elim N|].
    inversion D as [|? ? Hc _]; subst.
    rewrite (proj2 (parseInt_digit c rest Hc)), P. f_equal. lia.
  - apply Z.ltb_ge in S.
    pose proof (decimal_not_nil (Z.to_nat z)) as N.
    pose proof (decimal_digits (Z.to_nat z)) as D.
    pose proof (parse_digits_decimal (Z.to_nat z)) as P.
    destruct (decimal (Z.to_nat z)) as [|c rest]; [now elim N|].
    inversion D as [|? ? Hc _]; subst.
    rewrite (proj1 (parseInt_digit c rest Hc)), P. f_equal. lia.
Qed.

(** ** The jump form *)

Lemma handleJump_cases (length : nat) (st : State) :
  (exists num, parseInt (jumpInput st) = Some num
     /\ (1 <= num <= Z.of_nat length)%Z
     /\ handleJump length st =
          {| currentIndex := (num - 1)%Z; isFlipped := false;
             jumpInput := jumpInput st |})
  \/ handleJump length st =
       {| currentIndex := currentIndex st; isFlipped := isFlipped st;
          jumpInput := number_toString (currentIndex st + 1) |}.
Proof.
  unfold handleJump. destruct (parseInt (jumpInput st)) as [num|]; [|now right].
  destruct ((1 <=? num) && (num <=? Z.of_nat length))%Z eqn:E; [|now right].
  left. exists num. apply andb_true_iff in E. destruct E as [E1 E2].
  apply Z.leb_le in E1. apply Z.leb_le in E2. repeat split; assumption.
Qed.

(** X14. A submission of the jump form keeps the index inside the filtered
    list: from an index that points at a question, the index after the
    handler and the effect points at a question again, whatever was typed. *)
Theorem submitJump_in_range (filteredQuestions : list QuizQuestion) (st : State) :
  (0 <= currentIndex st < Z.of_nat (List.length filteredQuestions))%Z ->
  (0 <= currentIndex (submitJump (List.length filteredQuestions) st)
     < Z.of_nat (List.length filteredQuestions))%Z
  /\ exists q,
       activeQuestion filteredQuestions
         (submitJump (List.length filteredQuestions) st) = Some q.
Proof.
  intro R.
  assert (I : (0 <= currentIndex (submitJump (List.length filteredQuestions) st)
                 < Z.of_nat (List.length filteredQuestions))%Z).
  { unfold submitJump, syncJumpInput.
    destruct (handleJump_cases (List.length filteredQuestions) st)
      as [[num [_ [B ->]]]| ->]; cbn [currentIndex];
      match goal with |- context [(?a =? ?b)%Z] => destruct (a =? b)%Z end;
      cbn [currentIndex]; lia. }
  split; [exact I|]. unfold activeQuestion.
  destruct (currentIndex _ <? 0)%Z eqn:N; [apply Z.ltb_lt in N; lia|].
  destruct (nth_error filteredQuestions _) as [q|] eqn:E; [now exists q|].
  apply nth_error_None in E. lia.
Qed.

(** X15. After a submission of the jump form the text of the input reads as
    the number of the current card, whether the jump was accepted, was
    rejected, or led to the card already shown. *)
Theorem submitJump_shows_current (length : nat) (st : State) :
  parseInt (jumpInput (submitJump length st)) =
  Some (currentIndex (submitJump length st) + 1)%Z.
Proof.
  unfold submitJump, syncJumpInput.
  destruct (handleJump_cases length st) as [[num [P [_ ->]]]| ->]; cbn [currentIndex].
  - destruct (currentIndex st =? num - 1)%Z; cbn [currentIndex jumpInput].
    + rewrite P. f_equal. lia.
    + apply parseInt_number_toString.
  - rewrite Z.eqb_refl. cbn [currentIndex jumpInput]. apply parseInt_number_toString.
Qed.

(** ** The subjects *)

Lemma str_leb_total (a b : str) : str_leb a b = false -> str_leb b a = true.
Proof.
  revert b. induction a as [|x a IH]; intros [|y b]; simpl; try discriminate;
    try reflexivity.
  destruct (nat_of_ascii x <? nat_of_ascii y) eqn:L; [discriminate|].
  destruct (nat_of_ascii y <? nat_of_ascii x) eqn:G; [reflexivity|]. apply IH.
Qed.

Lemma insert_sorted_HdRel (y x : str) (l : list str) :
  HdRel (fun a b => str_leb a b = true) y l -> str_leb y x = true ->
  HdRel (fun a b => str_leb a b = true) y (insert_sorted x l).
Proof.
  intros H L. destruct l as [|z l]; simpl; [now constructor|].
  destruct (str_leb x z); constructor; [exact L|]. now inversion H.
Qed.

Lemma insert_sorted_Sorted (x : str) (l : list str) :
  Sorted (fun a b => str_leb a b = true) l ->
  Sorted (fun a b => str_leb a b = true) (insert_sorted x l).
Proof.
  induction l as [|y l IH]; intro H; simpl; [repeat constructor|].
  destruct (str_leb x y) eqn:L.
  - constructor; [exact H|]. now constructor.
  - inversion H as [|? ? S R]; subst. constructor; [now apply IH|].
    apply insert_sorted_HdRel; [exact R|]. now apply str_leb_total.
Qed.

Lemma sort_Sorted (l : list str) : Sorted (fun a b => str_leb a b = true) (sort l).
Proof.
  induction l as [|x l IH]; simpl; [constructor|now apply insert_sorted_Sorted].
Qed.

Lemma insert_sorted_Permutation (x : str) (l : list str) :
  Permutation (insert_sorted x l) (x :: l).
Proof.
  induction l as [|y l IH]; simpl; [reflexivity|].
  destruct (str_leb x y); [reflexivity|].
  rewrite IH. apply perm_swap.
Qed.

Lemma sort_Permutation (l : list str) : Permutation (sort l) l.
Proof.
  induction l as [|x l IH]; simpl; [reflexivity|].
  rewrite insert_sorted_Permutation. now constructor.
Qed.

Lemma existsb_str_eqb (x : str) (seen : list str) :
  existsb (str_eqb x) seen = true <-> In x seen.
Proof.
  rewrite existsb_exists. split.
  - intros [y [I E]]. apply str_eqb_eq in E. now subst.
  - intro I. exists x. split; [exact I|]. now apply str_eqb_eq.
Qed.

Lemma unique_In (l : list str) :
  forall seen x, In x (unique seen l) <-> In x l /\ ~ In x seen.
Proof.
  induction l as [|y l IH]; intros seen x; simpl; [tauto|].
  destruct (existsb (str_eqb y) seen) eqn:E.
  - apply existsb_str_eqb in E. rewrite IH. split; [tauto|].
    intros [[->|I] N]; tauto.
  - assert (N : ~ In y seen).
    { intro I. apply existsb_str_eqb in I. congruence. }
    simpl. rewrite IH. simpl. split.
    + intros [->|[I M]]; [tauto|]. split; [tauto|]. intro; apply M. now right.
    + intros [[->|I] M]; [now left|].
      destruct (list_eq_dec ascii_dec y x) as [->|D]; [now left|]. right.
      split; [exact I|]. intros [->|S]; tauto.
Qed.

Lemma unique_NoDup (l : list str) : forall seen, NoDup (unique seen l).
Proof.
  induction l as [|y l IH]; intro seen; simpl; [constructor|].
  destruct (existsb (str_eqb y) seen); [apply IH|].
  constructor; [|apply IH]. rewrite unique_In. simpl. tauto.
Qed.

(** X11. The list of subjects is ['All'] followed by the subjects of the
    questions that are not the empty string, each one once, in the order of
    the character codes. *)
Theorem subjects_sorted_unique (questions : list QuizQuestion) :
  exists rest,
    subjects questions = lit "All" :: rest
    /\ Sorted (fun a b => str_leb a b = true) rest
    /\ NoDup rest
    /\ forall s, In s rest <->
         s <> [] /\ exists q, In q questions /\ subject q = s.
Proof.
  eexists. split; [reflexivity|]. split; [apply sort_Sorted|]. split.
  - eapply Permutation_NoDup; [symmetry; apply sort_Permutation|apply unique_NoDup].
  - intro s. split.
    + intro I. apply (Permutation_in _ (sort_Permutation _)) in I.
      apply unique_In in I. destruct I as [I _]. apply filter_In in I.
      destruct I as [I N]. split; [intros ->; discriminate|].
      apply in_map_iff in I. destruct I as [q [E Q]]. now exists q.
    + intros [N [q [Q E]]].
      apply (Permutation_in _ (Permutation_sym (sort_Permutation _))).
      apply unique_In. split; [|intros []]. apply filter_In. split.
      * apply in_map_iff. now exists q.
      * destruct s; [now elim N|reflexivity].
Qed.

(** ** The filter *)

Section FilterFacts.

Variable toLowerCase : str -> str.

Local Abbreviation filtered := (filteredQuestions toLowerCase).
Local Abbreviation matchesQuery := (matches_query toLowerCase).

Lemma filter_throwing_Ok (f : QuizQuestion -> M bool) (l r : list QuizQuestion) :
  filter_throwing f l = Ok r ->
  r = filter (fun q => match f q with Ok b => b | Throw _ => false end) l.
Proof.
  revert r. induction l as [|q l IH]; intro r; cbn [filter_throwing filter].
  - intro H. now injection H as <-.
  - unfold bind. destruct (f q) as [b|e]; [|discriminate].
    destruct (filter_throwing f l) as [kept|e]; [|discriminate].
    intro H. injection H as <-. rewrite (IH kept eq_refl). reflexivity.
Qed.

Lemma filter_throwing_throws (f : QuizQuestion -> M bool) (l : list QuizQuestion)
  (q : QuizQuestion) :
  In q l -> (exists e, f q = Throw e) -> exists e, filter_throwing f l = Throw e.
Proof.
  intros I [e E]. induction l as [|x l IH]; [destruct I|].
  cbn [filter_throwing]. unfold bind.
  destruct (f x) as [b|e'] eqn:F; [|eexists; reflexivity].
  destruct I as [->|I]; [congruence|].
  destruct (IH I) as [e' ->]. eexists; reflexivity.
Qed.

Lemma filter_filter (A : Type) (f g : A -> bool) (l : list A) :
  filter g (filter f l) = filter (fun x => f x && g x) l.
Proof.
  induction l as [|x l IH]; simpl; [reflexivity|].
  destruct (f x); simpl; [destruct (g x)|]; now rewrite IH.
Qed.

(** X12. When the filter returns, its result is the list of the questions
    with those that fail a test left out, in the same order; with a subject
    selected every question returned has that subject; with ['All'] and a
    query that is blank the result is the whole list. *)
Theorem filteredQuestions_selects (questions result : list QuizQuestion)
  (searchQuery selectedSubject : str) :
  filtered questions searchQuery selectedSubject = Ok result ->
  (exists keep, result = filter keep questions
     /\ forall q, keep q = true ->
          selectedSubject = lit "All" \/ subject q = selectedSubject)
  /\ (selectedSubject = lit "All" -> trim searchQuery = [] -> result = questions).
Proof.
  unfold filteredQuestions. intro H. split.
  - destruct (str_eqb selectedSubject (lit "All")) eqn:A; cbn [negb] in H.
    + apply str_eqb_eq in A.
      destruct (nonempty (trim searchQuery)).
      * apply filter_throwing_Ok in H. eexists. split; [exact H|]. now left.
      * injection H as <-. exists (fun _ => true). split; [|now left].
        induction questions as [|q l IH]; simpl; [reflexivity|]. now rewrite <- IH.
    + destruct (nonempty (trim searchQuery)).
      * apply filter_throwing_Ok in H. rewrite filter_filter in H.
        eexists. split; [exact H|]. intros q K. right.
        apply andb_true_iff in K. destruct K as [K _]. now apply str_eqb_eq in K.
      * injection H as <-. eexists. split; [reflexivity|].
        intros q K. right. now apply str_eqb_eq in K.
  - intros -> T. rewrite T in H. cbn in H. now injection H as <-.
Qed.

(** X13. A search meets a question whose text is not a string with an
    exception: with a query that is not blank, a question of the selected
    subject whose [question] is not a string makes the filter throw. *)
Theorem filteredQuestions_throws (questions : list QuizQuestion)
  (searchQuery selectedSubject : str) (q : QuizQuestion) :
  nonempty (trim searchQuery) = true ->
  In q questions ->
  selectedSubject = lit "All" \/ subject q = selectedSubject ->
  (forall s, question q <> VString s) ->
  exists e, filtered questions searchQuery selectedSubject = Throw e.
Proof.
  intros T I S N. unfold filteredQuestions. rewrite T.
  apply filter_throwing_throws with (q := q).
  - destruct (str_eqb selectedSubject (lit "All")) eqn:A; cbn [negb]; [exact I|].
    apply filter_In. split; [exact I|]. apply str_eqb_eq.
    destruct S as [->|S]; [|exact S]. discriminate.
  - unfold matches_query, lower_includes, bind.
    destruct (question q) as [| |b|n|s|items|props|src]; try (eexists; reflexivity).
    now elim (N s).
Qed.

End FilterFacts.

End AppFacts.

Section AppWitnesses.

Import DataService App.

Lemma submitJump_in_range_witness :
  (0 <= currentIndex
          (submitJump (List.length FALLBACK_DATA)
             {| currentIndex := 0; isFlipped := true; jumpInput := lit "7" |})
     < Z.of_nat (List.length FALLBACK_DATA))%Z
  /\ exists q,
       activeQuestion FALLBACK_DATA
         (submitJump (List.length FALLBACK_DATA)
            {| currentIndex := 0; isFlipped := true; jumpInput := lit "7" |}) = Some q.
Proof.
  apply (submitJump_in_range FALLBACK_DATA
           {| currentIndex := 0; isFlipped := true; jumpInput := lit "7" |}).
  simpl. lia.
Defined.

Lemma filteredQuestions_selects_witness :
  (exists keep, FALLBACK_DATA = filter keep FALLBACK_DATA
     /\ forall q, keep q = true -> lit "All" = lit "All" \/ subject q = lit "All")
  /\ (lit "All" = lit "All" -> trim (lit "F(1)") = [] -> FALLBACK_DATA = FALLBACK_DATA).
Proof.
  apply (filteredQuestions_selects toLowerCase FALLBACK_DATA FALLBACK_DATA
           (lit "F(1)") (lit "All")).
  reflexivity.
Defined.

Lemma filteredQuestions_throws_witness :
  exists e,
    filteredQuestions toLowerCase
      [ {| id := 1%float; question := VNumber 5%float; options := [];
           answer := []; solution := VString []; subject := lit "General" |} ]
      (lit "x") (lit "All") = Throw e.
Proof.
  apply (filteredQuestions_throws toLowerCase
           [ {| id := 1%float; question := VNumber 5%float; options := [];
                answer := []; solution := VString []; subject := lit "General" |} ]
           (lit "x") (lit "All")
           {| id := 1%float; question := VNumber 5%float; options := [];
              answer := []; solution := VString []; subject := lit "General" |}).
  - reflexivity.
  - left. reflexivity.
  - left. reflexivity.
  - intros s H. discriminate H.
Defined.

End AppWitnesses.

(** * The order of the restoration *)

(** ** Tokens do not overlap *)

Lemma digits_then_other (ds1 ds2 : str) (c1 c2 : ascii) (r1 r2 : str) :
  Forall (fun c => is_digit c = true) ds1 ->
  Forall (fun c => is_digit c = true) ds2 ->
  is_digit c1 = false -> is_digit c2 = false ->
  ds1 ++ c1 :: r1 = ds2 ++ c2 :: r2 -> ds1 = ds2.
Proof.
  intros D1. revert ds2. induction D1 as [|d ds1 Hd D1 IH]; intros ds2 D2 N1 N2 E.
  - destruct D2 as [|e ds2 He D2]; [reflexivity|].
    simpl in E. injection E as -> _. congruence.
  - destruct D2 as [|e ds2 He D2]; simpl in E.
    + injection E as -> _. congruence.
    + injection E as -> E. f_equal. now apply IH.
Qed.

Lemma token_prefix_inj (n m : nat) (x y : str) :
  token n ++ x = token m ++ y -> n = m.
Proof.
  unfold token. rewrite <- !app_assoc. intro E. apply app_inv_head in E.
  apply decimal_inj.
  apply (digits_then_other _ _ "E"%char "E"%char (lit "ND" ++ x) (lit "ND" ++ y));
    try apply decimal_digits; try reflexivity. exact E.
Qed.

Lemma token_no_M_after_prefix (n : nat) : ~ In "M"%char (decimal n ++ lit "END").
Proof.
  intro I. apply in_app_or in I. destruct I as [I|I].
  - pose proof (decimal_digits n) as D. rewrite Forall_forall in D.
    apply D in I. discriminate.
  - simpl in I. repeat (destruct I as [I|I]; [discriminate I|]). exact I.
Qed.

(** The only place of a token where [MA] starts is its beginning. *)
Lemma token_suffix_MA (n : nat) (a z : str) :
  a ++ "M"%char :: "A"%char :: z = token n -> a = [].
Proof.
  unfold token. change (lit "MATHITEM" ++ decimal n ++ lit "END") with
    ("M"%char :: "A"%char :: "T"%char :: "H"%char :: "I"%char :: "T"%char
       :: "E"%char :: "M"%char :: (decimal n ++ lit "END")).
  intro E.
  destruct a as [|c1 a]; [reflexivity|exfalso]. simpl in E. injection E as -> E.
  destruct a as [|c2 a]; simpl in E; [discriminate|injection E as -> E].
  destruct a as [|c3 a]; simpl in E; [discriminate|injection E as -> E].
  destruct a as [|c4 a]; simpl in E; [discriminate|injection E as -> E].
  destruct a as [|c5 a]; simpl in E; [discriminate|injection E as -> E].
  destruct a as [|c6 a]; simpl in E; [discriminate|injection E as -> E].
  destruct a as [|c7 a]; simpl in E; [discriminate|injection E as -> E].
  destruct a as [|c8 a]; simpl in E.
  - (* [MA] at the last [M] of the prefix: a digit or [E] would be [A] *)
    injection E as E.
    pose proof (decimal_digits n) as D. pose proof (decimal_not_nil n) as N.
    destruct (decimal n) as [|d ds]; [now elim N|].
    simpl in E. injection E as <- _. inversion D as [|? ? Hd _]. discriminate Hd.
  - injection E as -> E.
    assert (I : In "M"%char (a ++ "M"%char :: "A"%char :: z))
      by (apply in_or_app; right; now left).
    rewrite E in I. exact (token_no_M_after_prefix n I).
Qed.

Lemma token_last (n : nat) : exists front, token n = front ++ ["D"%char].
Proof.
  exists (lit "MATHITEM" ++ decimal n ++ lit "EN"). unfold token.
  rewrite <- !app_assoc. reflexivity.
Qed.

(** A token does not start inside another one, nor at the last characters of
    one. *)
Lemma tokens_no_overlap (n m : nat) (a b x : str) :
  n <> m -> b <> [] -> a ++ b = token n -> strip_prefix (token m) (b ++ x) = None.
Proof.
  intros D B E. apply strip_prefix_None. intros y F.
  destruct b as [|c b]; [now elim B|].
  assert (Hc : c = "M"%char) by (unfold token in F; simpl in F; congruence).
  subst c. destruct b as [|c b].
  - destruct (token_last n) as [front L]. rewrite L in E.
    apply app_inj_tail in E. destruct E as [_ E]. discriminate E.
  - assert (Hc : c = "A"%char) by (unfold token in F; simpl in F; congruence).
    subst c. pose proof (token_suffix_MA n a b E) as ->. simpl in E.
    rewrite E in F. apply token_prefix_inj in F. contradiction.
Qed.

(** ** Replacements that do not meet *)

Lemma replace_all_through (t r f x : str) :
  (forall a b, f = a ++ b -> b <> [] -> strip_prefix t (b ++ x) = None) ->
  replace_all t r (f ++ x) = f ++ replace_all t r x.
Proof.
  induction f as [|c f IH]; intro H; [reflexivity|].
  simpl. rewrite replace_all_skip.
  - f_equal. apply IH. intros a b E B. apply (H (c :: a) b); [|exact B].
    simpl. now rewrite E.
  - apply (H [] (c :: f)); [reflexivity|discriminate].
Qed.

Lemma replace_all_through_token (n m : nat) (r x : str) :
  n <> m ->
  replace_all (token m) r (token n ++ x) = token n ++ replace_all (token m) r x.
Proof.
  intro D. apply replace_all_through. intros a b E B.
  apply (tokens_no_overlap n m a b x D B). now symmetry.
Qed.

Lemma replace_all_through_markup (t r f x : str) :
  alphanumeric t -> markup f -> ~ occurs t f ->
  replace_all t r (f ++ x) = f ++ replace_all t r x.
Proof.
  intros A [body F] N. apply replace_all_through. intros a b E B.
  apply strip_prefix_None. intros y G.
  apply app_eq_app in G. destruct G as [l [[G1 G2]|[G1 G2]]].
  - (* the token would lie inside the fragment *)
    apply N. exists a, l. rewrite E, G1. reflexivity.
  - (* the token would run over the end of the fragment *)
    destruct (exists_last B) as [b' [z Hb]].
    assert (Z : z = ">"%char).
    { rewrite F, Hb in E.
      change (lit "<" ++ body ++ lit ">") with (("<"%char :: body) ++ [">"%char]) in E.
      rewrite app_assoc in E. apply app_inj_tail in E. now destruct E. }
    apply alphanumeric_no_angle in A. destruct A as [_ A]. apply A.
    rewrite G1, Hb, Z. apply in_or_app. left. apply in_or_app. right. now left.
Qed.

(** Two replacements of different tokens by elements that hold neither token
    can be made in either order. *)
Lemma replace_all_comm (n m : nat) (r1 r2 : str) :
  n <> m -> markup r1 -> markup r2 ->
  ~ occurs (token m) r1 -> ~ occurs (token n) r2 ->
  forall h,
    replace_all (token m) r2 (replace_all (token n) r1 h) =
    replace_all (token n) r1 (replace_all (token m) r2 h).
Proof.
  intros D M1 M2 N1 N2 h. remember (List.length h) as k eqn:Hk. revert h Hk.
  induction k as [k IH] using lt_wf_ind. intros h Hk.
  destruct h as [|c h]; [reflexivity|].
  pose proof (token_not_nil n) as T1. pose proof (token_not_nil m) as T2.
  pose proof (token_alphanumeric n) as A1. pose proof (token_alphanumeric m) as A2.
  destruct (strip_prefix (token n) (c :: h)) as [rest|] eqn:E1.
  - pose proof (strip_prefix_length _ _ _ E1) as L.
    assert (0 < List.length (token n)) by (destruct (token n); [now elim T1|simpl; lia]).
    rewrite (replace_all_match _ r1 _ _ T1 E1).
    apply strip_prefix_Some in E1. rewrite E1.
    rewrite (replace_all_through_markup (token m) r2 r1 _ A2 M1 N1).
    rewrite (replace_all_through_token n m r2 rest D).
    rewrite (replace_all_match _ r1 _ _ T1 (strip_prefix_app _ _)).
    f_equal. apply (IH (List.length rest)); [lia|reflexivity].
  - destruct (strip_prefix (token m) (c :: h)) as [rest|] eqn:E2.
    + pose proof (strip_prefix_length _ _ _ E2) as L.
      assert (0 < List.length (token m)) by (destruct (token m); [now elim T2|simpl; lia]).
      rewrite (replace_all_match _ r2 _ _ T2 E2).
      apply strip_prefix_Some in E2. rewrite E2.
      rewrite (replace_all_through_markup (token n) r1 r2 _ A1 M2 N2).
      rewrite (replace_all_through_token m n r1 rest (not_eq_sym D)).
      rewrite (replace_all_match _ r2 _ _ T2 (strip_prefix_app _ _)).
      f_equal. apply (IH (List.length rest)); [lia|reflexivity].
    + rewrite (replace_all_skip _ r1 _ _ E1), (replace_all_skip _ r2 _ _ E2).
      destruct M1 as [b1 M1]. destruct M2 as [b2 M2].
      apply alphanumeric_no_angle in A1. apply alphanumeric_no_angle in A2.
      rewrite !replace_all_skip.
      * f_equal. apply (IH (List.length h)); [simpl in Hk; lia|reflexivity].
      * apply strip_prefix_None. intros y G.
        rewrite <- (replace_all_skip _ r2 _ _ E2), M2 in G.
        apply replace_all_prefix in G; [|exact T2|tauto].
        destruct G as [t' G]. rewrite G, strip_prefix_app in E1. discriminate.
      * apply strip_prefix_None. intros y G.
        rewrite <- (replace_all_skip _ r1 _ _ E1), M1 in G.
        apply replace_all_prefix in G; [|exact T1|tauto].
        destruct G as [t' G]. rewrite G, strip_prefix_app in E2. discriminate.
Qed.

(** ** Any order of the entries *)

Section RestorationOrder.

Variable Exn : Type.
Variable exn_to_string : Exn -> str.
Variable marked_parse : MarkedOptions -> str -> Result Exn str.
Variable katex_renderToString : str -> KatexOptions -> Result Exn str.

Local Abbreviation restoreEntry := (restore_entry exn_to_string katex_renderToString).
Local Abbreviation restoreAll := (restore exn_to_string katex_renderToString).
Local Abbreviation fragmentOf := (fragment exn_to_string katex_renderToString).
Local Abbreviation wellFormed := (restorable exn_to_string katex_renderToString).

Lemma restorable_Permutation (m m' : LatexMap) :
  Permutation m m' -> wellFormed m -> wellFormed m'.
Proof.
  intros P [N [T F]].
  assert (K : Permutation (keys m) (keys m')) by (unfold keys; now apply Permutation_map).
  split; [|split].
  - exact (Permutation_NoDup K N).
  - intros k I. apply T. exact (Permutation_in _ (Permutation_sym K) I).
  - intros entry I. destruct (F entry (Permutation_in _ (Permutation_sym P) I)) as [M O].
    split; [exact M|]. intros k J. apply O.
    exact (Permutation_in _ (Permutation_sym K) J).
Qed.

Lemma restorable_tail (x : str * MathSpan) (m : LatexMap) :
  wellFormed (x :: m) -> wellFormed m.
Proof.
  intros [N [T F]]. split; [|split].
  - now inversion N.
  - intros k I. apply T. now right.
  - intros entry I. destruct (F entry (or_intror I)) as [M O].
    split; [exact M|]. intros k J. apply O. now right.
Qed.

Lemma restore_entry_comm (x y : str * MathSpan) (m : LatexMap) (rawHtml : str) :
  wellFormed (x :: y :: m) ->
  restoreEntry (restoreEntry rawHtml x) y = restoreEntry (restoreEntry rawHtml y) x.
Proof.
  intros [N [T F]]. destruct x as [k1 d1], y as [k2 d2].
  rewrite !(restore_entry_fragment Exn exn_to_string katex_renderToString).
  destruct (T k1 (or_introl eq_refl)) as [n1 ->].
  destruct (T k2 (or_intror (or_introl eq_refl))) as [n2 ->].
  destruct (F (token n1, d1) (or_introl eq_refl)) as [M1 O1].
  destruct (F (token n2, d2) (or_intror (or_introl eq_refl))) as [M2 O2].
  cbn [snd] in *. apply replace_all_comm.
  - intros ->. inversion N as [|? ? I _]. apply I. now left.
  - exact M1.
  - exact M2.
  - apply O1. right. now left.
  - apply O2. now left.
Qed.

Lemma restore_Permutation (m m' : LatexMap) :
  Permutation m m' -> wellFormed m ->
  forall rawHtml, restoreAll m' rawHtml = restoreAll m rawHtml.
Proof.
  intro P. induction P as [|x l l' P IH|x y l|l l' l'' P1 IH1 P2 IH2]; intros W rawHtml.
  - reflexivity.
  - unfold restore. cbn [fold_left]. apply IH. exact (restorable_tail _ _ W).
  - unfold restore. cbn [fold_left]. f_equal. symmetry. exact (restore_entry_comm y x l rawHtml W).
  - rewrite IH2 by exact (restorable_Permutation _ _ P1 W). now apply IH1.
Qed.

(** X5. The order in which the entries of the table are restored does not
    matter: when the fragment of every span is an element that holds none of
    the tokens of the table, visiting the entries of a render in any other
    order gives the same HTML. *)
Theorem restore_any_order (text : str) (m' : LatexMap) (rawHtml : str) :
  Permutation (latexMap (snd (protect text))) m' ->
  (forall id data, In (id, data) (latexMap (snd (protect text))) ->
     markup (fragmentOf data) /\
     forall k, In k (keys (latexMap (snd (protect text)))) -> ~ occurs k (fragmentOf data)) ->
  restoreAll m' rawHtml = restoreAll (latexMap (snd (protect text))) rawHtml.
Proof.
  intros P F. apply restore_Permutation; [exact P|].
  pose proof (protect_state_ok text) as S. split; [|split].
  - rewrite S. apply Injective_map_NoDup; [|apply seq_NoDup].
    intros a b E. now apply token_inj.
  - intros k I. rewrite S in I. apply in_map_iff in I. destruct I as [n [<- _]].
    now exists n.
  - intros [id data] I. exact (F id data I).
Qed.

End RestorationOrder.

Lemma restore_any_order_witness :
  restore (fun e : str => e) katex_span
    [(token 1, {| type := inline; math := lit "y" |});
     (token 0, {| type := block; math := lit "x^2" |})]
    (lit "<p>MATHITEM0END and MATHITEM1END</p>")
  = restore (fun e : str => e) katex_span
      (latexMap (snd (protect (lit "$$x^2$$ and $y$"))))
      (lit "<p>MATHITEM0END and MATHITEM1END</p>").
Proof.
  apply (restore_any_order str (fun e => e) katex_span (lit "$$x^2$$ and $y$")).
  - apply perm_swap.
  - intros id data H. destruct H as [H|[H|[]]]; injection H as <- <-.
    + split; [exists (lit "span class=katex-display>x^2</span"); reflexivity|].
      intros k [<-|[<-|[]]]; apply not_includes; reflexivity.
    + split; [exists (lit "span class=katex>y</span"); reflexivity|].
      intros k [<-|[<-|[]]]; apply not_includes; reflexivity.
Defined.

(** * Subjects that are already normalized *)

Section SubjectFacts.

Import DataService.

(** X10. [mapSubject] leaves its own results as they are: a subject that it
    returned as a string is mapped to itself, so data that was normalized
    once keeps its subjects when it is normalized again. *)
Theorem mapSubject_idempotent (v : Value) (s : str) :
  mapSubject v = Ok (VString s) -> mapSubject (VString s) = Ok (VString s).
Proof.
  unfold mapSubject at 1. unfold bind.
  destruct v as [| |b|n|x|items|props|src]; try discriminate.
  - intro H. injection H as <-. reflexivity.
  - intro H. injection H as <-. reflexivity.
  - unfold subject_map.
    destruct (str_eqb (toLowerCase x) (lit "phy")) eqn:E1;
      [intro H; injection H as <-; reflexivity|].
    destruct (str_eqb (toLowerCase x) (lit "chem")) eqn:E2;
      [intro H; injection H as <-; reflexivity|].
    destruct (str_eqb (toLowerCase x) (lit "math")) eqn:E3;
      [intro H; injection H as <-; reflexivity|].
    destruct (str_eqb (toLowerCase x) (lit "constructor")) eqn:E4; [discriminate|].
    destruct (str_eqb (toLowerCase x) (lit "__proto__")) eqn:E5; [discriminate|].
    unfold or_else at 2. cbn [truthy]. destruct x as [|c x].
    + intro H. injection H as <-. reflexivity.
    + intro H. injection H as <-.
      unfold mapSubject, bind, subject_map. rewrite E1, E2, E3, E4, E5. reflexivity.
Qed.

Lemma mapSubject_idempotent_witness :
  mapSubject (VString (lit "Physics")) = Ok (VString (lit "Physics")).
Proof.
  apply (mapSubject_idempotent (VString (lit "PHY")) (lit "Physics")). reflexivity.
Defined.

End SubjectFacts.

(** * The restoration, occurrence by occurrence *)

(** ** One token *)

Lemma replace_all_Replaced (id frag : str) :
  id <> [] -> forall s, Replaced id frag s (replace_all id frag s).
Proof.
  intros P s. remember (List.length s) as n eqn:Hn. revert s Hn.
  induction n as [n IH] using lt_wf_ind. intros s Hn.
  destruct s as [|c s]; [rewrite replace_all_nil; constructor|].
  destruct (strip_prefix id (c :: s)) as [rest|] eqn:E.
  - rewrite (replace_all_match _ frag _ _ P E).
    pose proof (strip_prefix_length _ _ _ E) as L.
    assert (0 < List.length id) by (destruct id; [now elim P|simpl; lia]).
    apply strip_prefix_Some in E. rewrite E. constructor.
    apply (IH (List.length rest)); [lia|reflexivity].
  - rewrite (replace_all_skip _ frag _ _ E). constructor.
    + intros r F. rewrite F, strip_prefix_app in E. discriminate.
    + apply (IH (List.length s)); [simpl in Hn; lia|reflexivity].
Qed.

(** When [id] does not occur in [a] followed by all but the last character
    of [id], no occurrence of [id] starts inside [a] in [a ++ id ++ b]. *)
Lemma no_start_inside (id a b : str) :
  id <> [] -> ~ occurs id (a ++ removelast id) ->
  forall a1 a2, a = a1 ++ a2 -> a2 <> [] -> strip_prefix id (a2 ++ id ++ b) = None.
Proof.
  intros P N a1 a2 E A. apply strip_prefix_None. intros r F.
  rewrite (app_removelast_last "000"%char P) in F at 1.
  rewrite <- app_assoc, app_assoc in F.
  apply app_eq_app in F. destruct F as [l [[F1 F2]|[F1 F2]]].
  - apply N. exists a1, l. rewrite E, <- app_assoc, F1. reflexivity.
  - pose proof (f_equal (@List.length ascii) F1) as L1.
    rewrite !length_app in L1.
    assert (L : List.length id = S (List.length (removelast id))).
    { rewrite (app_removelast_last "000"%char P) at 1. rewrite length_app. simpl. lia. }
    destruct a2 as [|x a2]; [now elim A|]. simpl in L1.
    assert (a2 = [] /\ l = []) as [-> ->].
    { destruct a2, l; simpl in L1; try lia. split; reflexivity. }
    apply N. exists a1, []. rewrite E, app_nil_r, <- app_assoc.
    f_equal. rewrite app_nil_r in F1. symmetry. exact F1.
Qed.

(** An occurrence of [id] that is the only one in its text is replaced where
    it stands. *)
Lemma replace_all_one (id r a b : str) :
  id <> [] -> ~ occurs id (a ++ removelast id) -> ~ occurs id b ->
  replace_all id r (a ++ id ++ b) = a ++ r ++ b.
Proof.
  intros P N B. rewrite replace_all_through.
  - rewrite (replace_all_match id r (id ++ b) b P (strip_prefix_app _ _)).
    now rewrite replace_all_absent.
  - apply no_start_inside; assumption.
Qed.

(** ** The table, entry by entry *)

Lemma fold_Restored (fragment_of : MathSpan -> str) (m : LatexMap) :
  (forall k, In k (keys m) -> k <> []) ->
  forall s,
    Restored fragment_of m s
      (fold_left (fun html entry => replace_all (fst entry) (fragment_of (snd entry)) html)
                 m s).
Proof.
  induction m as [|[id data] m IH]; intros K s; cbn [fold_left fst snd].
  - constructor.
  - econstructor.
    + apply replace_all_Replaced. apply K. now left.
    + apply IH. intros k I. apply K. now right.
Qed.

(** ** The table, all tokens at once *)

Section Substitution.

Variable fragment_of : MathSpan -> str.

Lemma Substituted_empty_table (s : str) : Substituted fragment_of [] s s.
Proof.
  induction s as [|c s IH]; constructor; [|exact IH]. intros k [].
Qed.

(** A prefix without [<] of the result is a prefix of the text. *)
Lemma Substituted_prefix (m : LatexMap) (s out : str) :
  (forall id data, In (id, data) m -> markup (fragment_of data)) ->
  Substituted fragment_of m s out ->
  forall p t, ~ In "<"%char p -> out = p ++ t -> exists t', s = p ++ t'.
Proof.
  intros M D. induction D as [|id data rest out I D IH|c s out K D IH]; intros p t N E.
  - symmetry in E. apply app_eq_nil in E. destruct E as [-> _]. now exists [].
  - destruct p as [|x p]; [eexists; reflexivity|]. exfalso.
    destruct (M id data I) as [body F]. rewrite F in E. simpl in E.
    injection E as <- _. apply N. now left.
  - destruct p as [|x p]; [eexists; reflexivity|].
    simpl in E. injection E as <- E.
    destruct (IH p t) as [t' ->]; [intro; apply N; now right|exact E|].
    now exists t'.
Qed.

(** The reading passes over a stretch of text in which no token starts. *)
Lemma Substituted_through (m : LatexMap) (f x out : str) :
  (forall a b, f = a ++ b -> b <> [] ->
     forall k, In k (keys m) -> strip_prefix k (b ++ x) = None) ->
  Substituted fragment_of m (f ++ x) out ->
  exists out', out = f ++ out' /\ Substituted fragment_of m x out'.
Proof.
  revert out. induction f as [|c f IH]; intros out H D; [now exists out|].
  simpl in D. inversion D as [|id data rest o I D' E1 E2|c' s o K D' E1 E2]; subst.
  - exfalso. assert (J : In id (keys m)).
    { unfold keys. apply in_map_iff. now exists (id, data). }
    pose proof (H [] (c :: f) eq_refl ltac:(discriminate) id J) as S.
    simpl in S. rewrite <- E1, strip_prefix_app in S. discriminate.
  - destruct (IH o) as [out' [-> D2]]; [|exact D'|].
    + intros a b E B k J. apply (H (c :: a) b); [simpl; now rewrite E|exact B|exact J].
    + exists out'. split; [reflexivity|exact D2].
Qed.

End Substitution.

Section RestorationBySubstitution.

Variable Exn : Type.
Variable exn_to_string : Exn -> str.
Variable marked_parse : MarkedOptions -> str -> Result Exn str.
Variable katex_renderToString : str -> KatexOptions -> Result Exn str.

Local Abbreviation restoreEntry := (restore_entry exn_to_string katex_renderToString).
Local Abbreviation restoreAll := (restore exn_to_string katex_renderToString).
Local Abbreviation fragmentOf := (fragment exn_to_string katex_renderToString).
Local Abbreviation wellFormed := (restorable exn_to_string katex_renderToString).
Local Abbreviation render := (htmlContent exn_to_string marked_parse katex_renderToString).

Lemma keys_snoc (m : LatexMap) (id : str) (data : MathSpan) :
  keys (m ++ [(id, data)]) = keys m ++ [id].
Proof. unfold keys. now rewrite map_app. Qed.

Lemma restorable_init (m : LatexMap) (entry : str * MathSpan) :
  wellFormed (m ++ [entry]) -> wellFormed m.
Proof.
  destruct entry as [id data]. intros [N [T F]]. rewrite keys_snoc in *.
  split; [|split].
  - apply NoDup_remove_1 in N. now rewrite app_nil_r in N.
  - intros k I. apply T. apply in_or_app. now left.
  - intros e I. destruct (F e) as [M O]; [apply in_or_app; now left|].
    split; [exact M|]. intros k J. apply O. apply in_or_app. now left.
Qed.

Lemma Substituted_step (m : LatexMap) (id : str) (data : MathSpan) :
  wellFormed (m ++ [(id, data)]) ->
  forall raw h,
    Substituted fragmentOf m raw h ->
    Substituted fragmentOf (m ++ [(id, data)]) raw (replace_all id (fragmentOf data) h).
Proof.
  intros [N [T F]]. rewrite keys_snoc in *.
  assert (Nid : ~ In id (keys m)).
  { apply NoDup_remove_2 in N. now rewrite app_nil_r in N. }
  destruct (T id) as [n Hn]; [apply in_or_app; right; now left|]. subst id.
  assert (Tm : forall k, In k (keys m) -> exists j, k = token j /\ j <> n).
  { intros k I. destruct (T k) as [j ->]; [apply in_or_app; now left|].
    exists j. split; [reflexivity|]. intros ->. contradiction. }
  assert (Fm : forall k d, In (k, d) m ->
                markup (fragmentOf d) /\ ~ occurs (token n) (fragmentOf d)).
  { intros k d I. destruct (F (k, d)) as [M O]; [apply in_or_app; now left|].
    split; [exact M|]. apply O. apply in_or_app. right. now left. }
  assert (Mm : forall k d, In (k, d) m -> markup (fragmentOf d)).
  { intros k d I. now destruct (Fm k d I). }
  assert (Km : forall k d, In (k, d) m -> In k (keys m)).
  { intros k d I. unfold keys. apply in_map_iff. now exists (k, d). }
  pose proof (token_not_nil n) as P. pose proof (token_alphanumeric n) as A.
  intros raw. remember (List.length raw) as len eqn:Hl. revert raw Hl.
  induction len as [len IH] using lt_wf_ind. intros raw Hl h D.
  destruct (strip_prefix (token n) raw) as [rest|] eqn:E.
  - (* the text starts with the new token *)
    pose proof (strip_prefix_length _ _ _ E) as L.
    assert (0 < List.length (token n)) by (destruct (token n); [now elim P|simpl; lia]).
    apply strip_prefix_Some in E. subst raw.
    destruct (Substituted_through fragmentOf m (token n) rest h) as [h2 [-> D2]];
      [|exact D|].
    + intros a b Eab B k I. destruct (Tm k I) as [j [-> J]].
      apply (tokens_no_overlap n j a b rest); [now apply not_eq_sym|exact B|now symmetry].
    + rewrite (replace_all_match _ (fragmentOf data) _ _ P (strip_prefix_app _ _)).
      apply Substituted_hit; [apply in_or_app; right; now left|].
      apply (IH (List.length rest)); [lia|reflexivity|exact D2].
  - inversion D as [|k d rest o I D' E1 E2|c s o K D' E1 E2]; subst.
    + rewrite replace_all_nil. constructor.
    + (* the text starts with a token of the table *)
      destruct (Fm k d I) as [M O].
      destruct (Tm k (Km k d I)) as [j [-> J]].
      rewrite (replace_all_through_markup (token n) _ (fragmentOf d) o A M O).
      apply Substituted_hit; [apply in_or_app; now left|].
      assert (0 < List.length (token j))
        by (pose proof (token_not_nil j); destruct (token j); [contradiction|simpl; lia]).
      apply (IH (List.length rest)); [rewrite length_app; lia|reflexivity|exact D'].
    + (* the text starts with no token *)
      rewrite replace_all_skip.
      * apply Substituted_keep.
        -- intros k I r. rewrite keys_snoc in I. apply in_app_or in I.
           destruct I as [I|[<-|[]]]; [now apply K|].
           intro G. rewrite G, strip_prefix_app in E. discriminate.
        -- apply (IH (List.length s)); [simpl; lia|reflexivity|exact D'].
      * apply strip_prefix_None. intros y G.
        destruct (Substituted_prefix fragmentOf m (c :: s) (c :: o) Mm D (token n) y)
          as [t' G']; [apply alphanumeric_no_angle in A; tauto|exact G|].
        rewrite G', strip_prefix_app in E. discriminate.
Qed.

(** The restoration of a table whose fragments are elements free of its
    tokens is the substitution of all the tokens at once. *)
Lemma restore_Substituted (m : LatexMap) (rawHtml : str) :
  wellFormed m -> Substituted fragmentOf m rawHtml (restoreAll m rawHtml).
Proof.
  induction m as [|[id data] m IH] using rev_ind; intro W.
  - apply Substituted_empty_table.
  - rewrite (restore_snoc Exn exn_to_string katex_renderToString),
      (restore_entry_fragment Exn exn_to_string katex_renderToString).
    apply Substituted_step; [exact W|]. apply IH. exact (restorable_init _ _ W).
Qed.

End RestorationBySubstitution.

(** * A dollar sign that nothing closes *)





(** * The restoration and the unclosed dollar, as the claims state them *)

Section RestorationClaims.

Variable Exn : Type.
Variable exn_to_string : Exn -> str.
Variable marked_parse : MarkedOptions -> str -> Result Exn str.
Variable katex_renderToString : str -> KatexOptions -> Result Exn str.

Local Abbreviation restoreEntry := (restore_entry exn_to_string katex_renderToString).
Local Abbreviation restoreAll := (restore exn_to_string katex_renderToString).
Local Abbreviation fragmentOf := (fragment exn_to_string katex_renderToString).
Local Abbreviation render := (htmlContent exn_to_string marked_parse katex_renderToString).

(** C1, as amended. The fragment of a span is the HTML that KaTeX returned
    for its source, or the error fragment when KaTeX threw. When each of
    these fragments is an element ([<] ... [>]) that contains no token of the
    table, the HTML returned is the output of the Markdown transform read
    from left to right, with every occurrence of every token of the table
    replaced by the fragment of the span of that token and every other
    character kept; and no token of the table is left in it. *)
Theorem C1_issued_tokens_restored (g : MarkedOptions) (text html : str) :
  fst (render g text) = Ok html ->
  (forall id data, In (id, data) (latexMap (snd (protect text))) ->
     markup (fragmentOf data) /\
     forall k, In k (keys (latexMap (snd (protect text)))) -> ~ occurs k (fragmentOf data)) ->
  ((text = [] /\ html = [])
   \/ exists rawHtml,
        marked_parse {| gfm := true; breaks := true |} (fst (protect text)) = Ok rawHtml
        /\ Substituted fragmentOf (latexMap (snd (protect text))) rawHtml html)
  /\ (forall data rendered,
        katex_renderToString (math data) (katex_options data) = Ok rendered ->
        fragmentOf data = rendered)
  /\ (forall data e,
        katex_renderToString (math data) (katex_options data) = Throw e ->
        fragmentOf data = error_fragment exn_to_string e data)
  /\ (forall k, In k (keys (latexMap (snd (protect text)))) -> ~ occurs k html).
Proof.
  intros H F. split; [|split; [|split]].
  - destruct text as [|c text]; [left; split; [reflexivity|]; now injection H as <-|].
    right. rewrite htmlContent_unfold in H by discriminate. cbn [fst] in H.
    destruct (marked_parse _ _) as [rawHtml|e]; [|discriminate].
    injection H as <-. exists rawHtml. split; [reflexivity|].
    apply restore_Substituted.
    pose proof (protect_state_ok (c :: text)) as S. split; [|split].
    + rewrite S. apply Injective_map_NoDup; [|apply seq_NoDup].
      intros a b E. now apply token_inj.
    + intros k I. rewrite S in I. apply in_map_iff in I. destruct I as [n [<- _]].
      now exists n.
    + intros [id data] I. exact (F id data I).
  - intros data rendered K. unfold fragment. now rewrite K.
  - intros data e K. unfold fragment. now rewrite K.
  - intros k Hk. destruct text as [|c text]; [destruct Hk|].
    rewrite htmlContent_unfold in H by discriminate. cbn [fst] in H.
    destruct (marked_parse _ _) as [rawHtml|e]; [|discriminate].
    injection H as <-.
    apply restore_clean; [|exact F|exact Hk].
    apply state_ok_keys, protect_state_ok.
Qed.

(** C4. When KaTeX throws for the source of a span, the catch branch puts the
    error fragment in the place of every occurrence of the token of that span:
    the new HTML is the old one with the occurrences of the token, from left
    to right, replaced by the fragment and all else kept, and a token that
    occurs once gives the text before it, the fragment, and the text after
    it. The fragment carries the class [error], the source and the text of
    the exception. The call returns normally whenever [marked.parse] did,
    whatever KaTeX throws, and its result comes from the Markdown output by
    replacing, entry after entry, each token by the fragment of its own span,
    so the other spans are rendered as they are without the failure. *)
Theorem C4_math_failure_is_local (g : MarkedOptions) (text rawHtml id : str)
  (data : MathSpan) (e : Exn) :
  katex_renderToString (math data) (katex_options data) = Throw e ->
  (restoreEntry rawHtml (id, data) = replace_all id (error_fragment exn_to_string e data) rawHtml
   /\ fragmentOf data = error_fragment exn_to_string e data
   /\ occurs (lit "error") (error_fragment exn_to_string e data)
   /\ occurs (math data) (error_fragment exn_to_string e data)
   /\ occurs (exn_to_string e) (error_fragment exn_to_string e data))
  /\ (id <> [] ->
      Replaced id (error_fragment exn_to_string e data) rawHtml
        (restoreEntry rawHtml (id, data)))
  /\ (forall a b, id <> [] -> ~ occurs id (a ++ removelast id) -> ~ occurs id b ->
      restoreEntry (a ++ id ++ b) (id, data)
        = a ++ error_fragment exn_to_string e data ++ b)
  /\ (forall raw, marked_parse {| gfm := true; breaks := true |} (fst (protect text)) = Ok raw ->
      text <> [] ->
      fst (render g text) =
        Ok (fold_left (fun html entry => replace_all (fst entry) (fragmentOf (snd entry)) html)
                      (latexMap (snd (protect text))) raw)
      /\ Restored fragmentOf (latexMap (snd (protect text))) raw
           (fold_left (fun html entry => replace_all (fst entry) (fragmentOf (snd entry)) html)
                      (latexMap (snd (protect text))) raw))
  /\ (forall err, fst (render g text) = Throw err ->
      marked_parse {| gfm := true; breaks := true |} (fst (protect text)) = Throw err).
Proof.
  intro H.
  assert (F : fragmentOf data = error_fragment exn_to_string e data).
  { unfold fragment. now rewrite H. }
  assert (R : forall h, restoreEntry h (id, data)
                        = replace_all id (error_fragment exn_to_string e data) h).
  { intro h. rewrite (restore_entry_fragment Exn exn_to_string katex_renderToString), F.
    reflexivity. }
  split; [|split; [|split; [|split]]].
  - split; [apply R|]. split; [exact F|]. repeat split.
    + exists (lit "<span class=" ++ dquote ++ lit "text-red-400 "),
        (dquote ++ lit " title=" ++ dquote ++ exn_to_string e ++ dquote
           ++ lit ">" ++ lit "$" ++ math data ++ lit "$" ++ lit "</span>").
      unfold error_fragment, span_open. rewrite <- !app_assoc. reflexivity.
    + exists (span_open exn_to_string e ++ lit "$"), (lit "$</span>").
      unfold error_fragment. rewrite <- !app_assoc. reflexivity.
    + exists (lit "<span class=" ++ dquote ++ lit "text-red-400 error" ++ dquote
                ++ lit " title=" ++ dquote),
        (dquote ++ lit ">" ++ lit "$" ++ math data ++ lit "$" ++ lit "</span>").
      unfold error_fragment, span_open. rewrite <- !app_assoc. reflexivity.
  - intro P. rewrite R. now apply replace_all_Replaced.
  - intros a b P A B. rewrite R. now apply replace_all_one.
  - intros raw M N. split.
    + rewrite htmlContent_unfold by assumption. cbn [fst].
      rewrite M, (restore_fold Exn exn_to_string katex_renderToString). reflexivity.
    + apply fold_Restored. intros k I.
      exact (proj1 (state_ok_keys _ (protect_state_ok text) k I)).
  - intros err E. destruct text as [|c text]; [discriminate|].
    rewrite htmlContent_unfold in E by discriminate. cbn [fst] in E.
    destruct (marked_parse _ _); [discriminate|exact E].
Qed.


End RestorationClaims.

Lemma C1_issued_tokens_restored_witness :
  Substituted (fragment (fun e : str => e) katex_span)
    (latexMap (snd (protect (lit "$$x^2$$ and $y$"))))
    (lit "<p>MATHITEM0END and MATHITEM1END</p>" ++ newline)
    (lit "<p><span class=katex-display>x^2</span> and <span class=katex>y</span></p>"
       ++ newline)
  /\ ~ occurs (token 0)
       (lit "<p><span class=katex-display>x^2</span> and <span class=katex>y</span></p>"
          ++ newline).
Proof.
  destruct (C1_issued_tokens_restored str (fun e => e) paragraph katex_span
              default_options (lit "$$x^2$$ and $y$")
              (lit "<p><span class=katex-display>x^2</span> and <span class=katex>y</span></p>"
                 ++ newline)) as [S [_ [_ N]]].
  - reflexivity.
  - intros id data H. destruct H as [H|[H|[]]]; injection H as <- <-.
    + split; [exists (lit "span class=katex-display>x^2</span"); reflexivity|].
      intros k [<-|[<-|[]]]; apply not_includes; reflexivity.
    + split; [exists (lit "span class=katex>y</span"); reflexivity|].
      intros k [<-|[<-|[]]]; apply not_includes; reflexivity.
  - split.
    + destruct S as [[E _]|[rawHtml [M S]]]; [discriminate E|].
      injection M as <-. exact S.
    + apply N. left. reflexivity.
Defined.

Lemma C4_math_failure_is_local_witness :
  restore_entry (fun e : str => e) katex_throws (lit "<p>MATHITEM0END</p>")
    (token 0, {| type := inline; math := lit "\bad{" |})
  = lit "<p><span class=" ++ dquote ++ lit "text-red-400 error" ++ dquote
      ++ lit " title=" ++ dquote ++ lit "ParseError" ++ dquote
      ++ lit ">$\bad{$</span></p>".
Proof.
  apply (proj1 (proj2 (proj2
           (C4_math_failure_is_local str (fun e => e) paragraph katex_throws
              default_options (lit "$\bad{$") (lit "<p>MATHITEM0END</p>") (token 0)
              {| type := inline; math := lit "\bad{" |} (lit "ParseError") eq_refl)))
           (lit "<p>") (lit "</p>")).
  - discriminate.
  - apply not_includes. reflexivity.
  - apply not_includes. reflexivity.
Defined.


